(** * Kukkuu events: enrolment admission, publication, occurrence
      administration and occurrence filters

    A shallow embedding of [events/schema.py] and [events/filters.py].
    The Django tables are finite maps keyed by primary key, the enrolment
    table is the list of its rows in insertion order, and a mutation is a
    computation over the store that either returns or raises. *)

From stdpp Require Import gmap strings list sorting.
From Stdlib Require Import ZArith Ascii.

Open Scope string_scope.
Open Scope list_scope.
Open Scope Z_scope.

(** ** Python strings *)

(** A Python [str] is the sequence of its code points; [text] reads a
    literal of 7-bit characters. *)
Definition text (s : string) : list N := N_of_ascii <$> String.list_ascii_of_string s.

(** The rows of the Unicode database that [str.lower] reads: the full
    lower-case mapping of a code point and its Cased and Case_Ignorable
    properties. The database comes with the interpreter, not with the
    sources, and is a parameter. *)
Record CaseTables := {
  to_lower : N → list N;
  is_cased : N → bool;
  is_case_ignorable : N → bool
}.

(** The Greek sigmas: capital, small and small final. *)
Definition CAPITAL_SIGMA : N := 931.
Definition SMALL_SIGMA : N := 963.
Definition SMALL_FINAL_SIGMA : N := 962.

(** ** Data model *)

(** A model instance as the ORM hands it out: primary key and column values. *)
Record instance (A : Type) := Instance { pk : nat; fields : A }.
Arguments Instance {A} pk fields.
Arguments pk {A} _.
Arguments fields {A} _.

(** [info.context.user]: what the graphql_jwt decorators look at. *)
Record User := {
  user_id : nat;
  is_authenticated : bool;
  is_staff : bool
}.

Inductive ParticipantsPerInvite := FAMILY | CHILD_AND_GUARDIAN.

Record Event := {
  duration : Z;
  participants_per_invite : ParticipantsPerInvite;
  capacity_per_occurrence : Z;
  published_at : option Z
}.

Record Occurrence := {
  time : Z;
  event_id : nat;
  venue_id : nat;
  occurrence_language : list N
}.

Record Child := { first_name : string }.

Record Guardian := {
  guardian_user : nat;
  guardian_children : list nat
}.

(** A row of the through table of the child/occurrence relation. *)
Record Enrolment := {
  enrolment_id : nat;
  enrolment_child : nat;
  enrolment_occurrence : nat;
  created_at : Z
}.

Record Store := {
  events : gmap nat Event;
  occurrences : gmap nat Occurrence;
  children : gmap nat Child;
  guardians : list Guardian;
  enrolments : list Enrolment;
  enrolment_seq : nat
}.

Definition set_enrolments (st : Store) (rows : list Enrolment) (seq : nat) : Store :=
  {| events := events st; occurrences := occurrences st; children := children st;
     guardians := guardians st; enrolments := rows; enrolment_seq := seq |}.

Definition set_events (st : Store) (evs : gmap nat Event) : Store :=
  {| events := evs; occurrences := occurrences st; children := children st;
     guardians := guardians st; enrolments := enrolments st;
     enrolment_seq := enrolment_seq st |}.

(** ** Exceptions and the mutation monad *)

Inductive exn :=
| DoesNotExist (model : string)
| MultipleObjectsReturned (model : string)
| PermissionDenied
| KukkuuGraphQLError (msg : string)
| NotificationError (msg : string).

Inductive result (A : Type) :=
| Ok (a : A)
| Raise (e : exn).
Arguments Ok {A} a.
Arguments Raise {A} e.

(** A computation reads and writes the store and returns or raises; the
    store it hands back is the one at the point where it stopped. *)
Definition M (A : Type) : Type := Store → result A * Store.

Definition ret {A} (a : A) : M A := fun st => (Ok a, st).

Definition bind {A B} (m : M A) (k : A → M B) : M B :=
  fun st => match m st with
            | (Ok a, st') => k a st'
            | (Raise e, st') => (Raise e, st')
            end.

Definition raise {A} (e : exn) : M A := fun st => (Raise e, st).

Definition gets {A} (f : Store → A) : M A := fun st => (Ok (f st), st).

Definition modify (f : Store → Store) : M unit := fun st => (Ok tt, f st).

#[global] Instance M_ret : MRet M := @ret.
#[global] Instance M_bind : MBind M := fun A B k m => bind m k.

(** [str(e)] for Django's [Model.DoesNotExist]. *)
Definition str_DoesNotExist (model : string) : string :=
  String.append model " matching query does not exist.".

(** [try: m except Model.DoesNotExist as e: raise KukkuuGraphQLError(e)] *)
Definition try_except_DoesNotExist {A} (model : string) (m : M A) : M A :=
  fun st => match m st with
            | (Raise (DoesNotExist model'), st') =>
                if decide (model' = model)
                then (Raise (KukkuuGraphQLError (str_DoesNotExist model)), st')
                else (Raise (DoesNotExist model'), st')
            | r => r
            end.

(** [@transaction.atomic]: an exception leaving the block rolls the store
    back to what it was on entry. *)
Definition transaction_atomic {A} (m : M A) : M A :=
  fun st => match m st with
            | (Ok a, st') => (Ok a, st')
            | (Raise e, _) => (Raise e, st)
            end.

(** graphql_jwt's [user_passes_test]; the decorators below sit outside
    [@transaction.atomic]. *)
Definition user_passes_test {A} (test : User → bool) (user : User) (m : M A) : M A :=
  if test user then m else raise PermissionDenied.

Definition login_required {A} : User → M A → M A := user_passes_test is_authenticated.
Definition staff_member_required {A} : User → M A → M A := user_passes_test is_staff.

(** ** ORM access *)

(** [Model.objects.get(pk=...)] on a table keyed by primary key. *)
Definition objects_get {A} (model : string) (table : Store → gmap nat A) (key : nat)
  : M (instance A) :=
  fun st => match table st !! key with
            | Some r => (Ok (Instance key r), st)
            | None => (Raise (DoesNotExist model), st)
            end.

(** [qs.get()] on a query set given by its rows. *)
Definition queryset_get {A} (model : string) (qs : list A) : M A :=
  match qs with
  | [] => raise (DoesNotExist model)
  | [x] => ret x
  | _ => raise (MultipleObjectsReturned model)
  end.

(** Modelled from the spec: [Child.objects.user_can_update] lives in
    children/models.py, which is not among the sources; the acting user is
    authorised for a child when the user is a guardian of it. *)
Definition user_can_update (st : Store) (user : User) (child : nat) : bool :=
  bool_decide (Exists (fun g => guardian_user g = user_id user ∧
                                child ∈ guardian_children g) (guardians st)).

(** [Child.objects.user_can_update(user).get(pk=child_id)] *)
Definition Child_objects_user_can_update_get (user : User) (child_id : nat)
  : M (instance Child) :=
  fun st => match children st !! child_id with
            | Some c => if user_can_update st user child_id
                        then (Ok (Instance child_id c), st)
                        else (Raise (DoesNotExist "Child"), st)
            | None => (Raise (DoesNotExist "Child"), st)
            end.

(** [occurrence.event]: follows the foreign key. *)
Definition occurrence_event (occurrence : instance Occurrence) : M (instance Event) :=
  objects_get "Event" events (event_id (fields occurrence)).

(** [child.occurrences]: the occurrences reached through the child's
    enrolment rows, one per row. *)
Definition child_occurrences (st : Store) (child : nat) : list (instance Occurrence) :=
  omap (fun r => if decide (enrolment_child r = child)
                 then Instance (enrolment_occurrence r)
                        <$> occurrences st !! enrolment_occurrence r
                 else None)
       (enrolments st).

(** [child.occurrences.filter(event=event)] *)
Definition joined_occurrences (st : Store) (child event : nat)
  : list (instance Occurrence) :=
  filter (fun o => event_id (fields o) = event) (child_occurrences st child).

(** [occurrence.enrolments] *)
Definition occurrence_enrolments (st : Store) (occurrence : nat) : list Enrolment :=
  filter (fun r => enrolment_occurrence r = occurrence) (enrolments st).

(** [Enrolment.objects.create(child=child, occurrence=occurrence)]; the
    key comes from the table's sequence and [created_at] from the clock. *)
Definition Enrolment_objects_create (now : Z) (child : instance Child)
    (occurrence : instance Occurrence) : M Enrolment :=
  fun st =>
    let e := {| enrolment_id := enrolment_seq st;
                enrolment_child := pk child;
                enrolment_occurrence := pk occurrence;
                created_at := now |} in
    (Ok e, set_enrolments st (enrolments st ++ [e]) (S (enrolment_seq st))).

(** [occurrence.children.remove(child)]: deletes the through rows that
    link the two. *)
Definition occurrence_children_remove (occurrence : instance Occurrence)
    (child : instance Child) : M unit :=
  modify (fun st =>
    set_enrolments st
      (filter (fun r => ¬ (enrolment_occurrence r = pk occurrence ∧
                           enrolment_child r = pk child)) (enrolments st))
      (enrolment_seq st)).

(** ** events/schema.py *)

Definition validate_enrolment (now : Z) (child : instance Child)
    (occurrence : instance Occurrence) : M unit :=
  event ← occurrence_event occurrence;
  joined ← gets (fun st => joined_occurrences st (pk child) (pk event));
  if bool_decide (joined ≠ []) then
    raise (KukkuuGraphQLError "Child already joined this event")
  else
    count ← gets (fun st => length (occurrence_enrolments st (pk occurrence)));
    if bool_decide (Z.of_nat count >= capacity_per_occurrence (fields event)) then
      raise (KukkuuGraphQLError "Maximum enrolments created")
    else if bool_decide (time (fields occurrence) < now) then
      raise (KukkuuGraphQLError "Cannot join occurrence in the past")
    else mret tt.

(** [EnrolOccurrenceMutation.mutate_and_get_payload]; [now] is the clock
    reading of the request. *)
Definition EnrolOccurrenceMutation (user : User) (now : Z)
    (occurrence_id child_id : nat) : M Enrolment :=
  login_required user (transaction_atomic (
    occurrence ← try_except_DoesNotExist "Occurrence"
                    (objects_get "Occurrence" occurrences occurrence_id);
    child ← try_except_DoesNotExist "Child"
               (Child_objects_user_can_update_get user child_id);
    validate_enrolment now child occurrence;;
    Enrolment_objects_create now child occurrence)).

(** [UnenrolOccurrenceMutation.mutate_and_get_payload] *)
Definition UnenrolOccurrenceMutation (user : User)
    (occurrence_id child_id : nat) : M unit :=
  login_required user (transaction_atomic (
    child ← try_except_DoesNotExist "Child"
               (Child_objects_user_can_update_get user child_id);
    try_except_DoesNotExist "Occurrence" (
      qs ← gets (fun st =>
              filter (fun o => pk o = occurrence_id) (child_occurrences st (pk child)));
      occurrence ← queryset_get "Occurrence" qs;
      occurrence_children_remove occurrence child))).

(** ** Event publication *)

(** Modelled from the spec: [Event.is_published] is defined in
    events/models.py, which is not among the sources; an event is published
    when its [published_at] is not null. *)
Definition is_published (event : instance Event) : bool :=
  bool_decide (published_at (fields event) ≠ None).

(** Modelled from the spec: [Event.publish] is defined in events/models.py,
    which is not among the sources; it sets [published_at] to the current
    time and saves the event. *)
Definition set_published_at (ev : Event) (value : option Z) : Event :=
  {| duration := duration ev;
     participants_per_invite := participants_per_invite ev;
     capacity_per_occurrence := capacity_per_occurrence ev;
     published_at := value |}.

Definition Event_publish (now : Z) (event : instance Event) : M (instance Event) :=
  fun st =>
    let ev := set_published_at (fields event) (Some now) in
    (Ok (Instance (pk event) ev), set_events st (<[pk event := ev]> (events st))).

Inductive NotificationType := EVENT_PUBLISHED.

(** [Guardian.objects.annotate(children_count=Count("children"))
      .filter(children_count__gt=0)] *)
Definition guardians_with_children (st : Store) : list Guardian :=
  filter (fun g => (0 < length (guardian_children g))%nat) (guardians st).

Section Publication.

(** [events.utils.send_event_notifications_to_guardians] is an external
    collaborator: it returns or raises, and writes none of the tables
    above. *)
Variable send_event_notifications_to_guardians :
  instance Event → NotificationType → list Guardian → result unit.

Definition send (event : instance Event) (type : NotificationType)
    (to : list Guardian) : M unit :=
  fun st => (send_event_notifications_to_guardians event type to, st).

(** [PublishEventMutation.mutate_and_get_payload] *)
Definition PublishEventMutation (user : User) (now : Z) (id : nat)
  : M (instance Event) :=
  staff_member_required user (transaction_atomic (
    try_except_DoesNotExist "Event" (
      event ← objects_get "Event" events id;
      if is_published event then
        raise (KukkuuGraphQLError "Event is already published")
      else
        event ← Event_publish now event;
        guardians ← gets guardians_with_children;
        send event EVENT_PUBLISHED guardians;;
        mret event))).

End Publication.

(** ** events/filters.py and the occurrence query *)

(** [str.isspace] for one code point. *)
Definition is_space (c : N) : bool :=
  ((9 <=? c) && (c <=? 13) || (28 <=? c) && (c <=? 32) || (c =? 133) || (c =? 160)
   || (c =? 5760) || (8192 <=? c) && (c <=? 8202) || (c =? 8232) || (c =? 8233)
   || (c =? 8239) || (c =? 8287) || (c =? 12288))%N.

Fixpoint lstrip (s : list N) : list N :=
  match s with
  | [] => []
  | c :: s' => if is_space c then lstrip s' else s
  end.

(** [str.strip()] *)
Definition str_strip (s : list N) : list N :=
  reverse (lstrip (reverse (lstrip s))).

Section Lower.

Variable unicode : CaseTables.

(** The nearest code point that is not case-ignorable. *)
Fixpoint first_not_ignorable (s : list N) : option N :=
  match s with
  | [] => None
  | c :: s' => if is_case_ignorable unicode c then first_not_ignorable s' else Some c
  end.

(** The final-sigma context of [str.lower]: a cased code point before, case
    ignorable ones skipped, and no cased one after. [before] holds the code
    points before the sigma, the nearest first. *)
Definition final_sigma (before after : list N) : bool :=
  match first_not_ignorable before with
  | None => false
  | Some c =>
      is_cased unicode c &&
      match first_not_ignorable after with
      | None => true
      | Some d => negb (is_cased unicode d)
      end
  end.

Fixpoint lower_from (before s : list N) : list N :=
  match s with
  | [] => []
  | c :: s' =>
      (if (c =? CAPITAL_SIGMA)%N
       then [if final_sigma before s' then SMALL_FINAL_SIGMA else SMALL_SIGMA]
       else to_lower unicode c)
      ++ lower_from (c :: before) s'
  end.

(** [str.lower()]: every code point gives its full lower-case mapping,
    except the Greek capital sigma, which is mapped by context. *)
Definition str_lower (s : list N) : list N := lower_from [] s.

End Lower.

(** What django_filters hands to the method of a [CharFilter]: the form
    field strips the value, and an empty value skips the filter. A value
    with a null character does not pass the validation of the form field
    and is not considered here. *)
Definition clean_char_value (value : list N) : option (list N) :=
  match str_strip value with
  | [] => None
  | v => Some v
  end.

Abbreviation QuerySet := (list (instance Occurrence)).

(** [queryset.order_by("time")] *)
Definition time_le (a b : instance Occurrence) : Prop :=
  time (fields a) ≤ time (fields b).

#[global] Instance time_le_dec a b : Decision (time_le a b).
Proof. unfold time_le. apply _. Defined.

Definition order_by_time (qs : QuerySet) : QuerySet := merge_sort time_le qs.

(** [OccurrenceNode.get_queryset] *)
Definition OccurrenceNode_get_queryset (user : User) (queryset : QuerySet) : M QuerySet :=
  login_required user (mret (order_by_time queryset)).

(** The filter methods take the query set and the value; the field name
    argument is fixed by the filter declarations. Global ids are taken
    already decoded, so that an id that is absent or empty is [None]. *)
Definition filter_by_upcoming (now : Z) (qs : QuerySet) (value : bool) : QuerySet :=
  if value then filter (fun o => time (fields o) >= now) qs else qs.

Definition filter_by_venue_global_id (qs : QuerySet) (value : nat) : QuerySet :=
  filter (fun o => venue_id (fields o) = value) qs.

Definition filter_by_event_global_id (qs : QuerySet) (value : nat) : QuerySet :=
  filter (fun o => event_id (fields o) = value) qs.

Definition filter_by_occurrence_language (unicode : CaseTables) (qs : QuerySet)
    (value : list N) : QuerySet :=
  filter (fun o => occurrence_language (fields o) = str_lower unicode value) qs.

(** The arguments of the [occurrences] query that do not depend on the
    local time zone. *)
Record OccurrenceFilter := {
  upcoming : option bool;
  venue_global_id : option nat;
  event_global_id : option nat;
  language : option (list N)
}.

Definition apply_filter {A} (f : QuerySet → A → QuerySet) (value : option A)
    (qs : QuerySet) : QuerySet :=
  match value with
  | Some v => f qs v
  | None => qs
  end.

Definition filter_queryset (unicode : CaseTables) (now : Z) (args : OccurrenceFilter)
    (qs : QuerySet) : QuerySet :=
  apply_filter (filter_by_occurrence_language unicode)
               (language args ≫= clean_char_value)
    (apply_filter filter_by_event_global_id (event_global_id args)
      (apply_filter filter_by_venue_global_id (venue_global_id args)
        (apply_filter (filter_by_upcoming now) (upcoming args) qs))).

(** [Occurrence.objects.all()] *)
Definition Occurrence_objects_all (st : Store) : QuerySet :=
  (fun kv => Instance kv.1 kv.2) <$> map_to_list (occurrences st).

(** [Query.occurrences]: the node's query set, then the filter set. *)
Definition Query_occurrences (unicode : CaseTables) (user : User) (now : Z)
    (args : OccurrenceFilter) : M QuerySet :=
  all ← gets Occurrence_objects_all;
  qs ← OccurrenceNode_get_queryset user all;
  mret (filter_queryset unicode now args qs).

(** ** Request sequences *)

Inductive request :=
| Enrol (user : User) (now : Z) (occurrence_id child_id : nat)
| Unenrol (user : User) (occurrence_id child_id : nat).

(** The store a request leaves behind. *)
Definition handle (st : Store) (rq : request) : Store :=
  match rq with
  | Enrol user now oid cid => (EnrolOccurrenceMutation user now oid cid st).2
  | Unenrol user oid cid => (UnenrolOccurrenceMutation user oid cid st).2
  end.

Definition run_requests (st : Store) (rqs : list request) : Store :=
  foldl handle st rqs.

(** One publish request: the acting user, the clock reading, and how the
    notification dispatch behaves during it. *)
Record publish_call := {
  call_send : instance Event → NotificationType → list Guardian → result unit;
  call_user : User;
  call_now : Z
}.

(** Publish requests for one event, served one after the other. *)
Fixpoint publish_each (id : nat) (calls : list publish_call) (st : Store)
  : list (result (instance Event)) * Store :=
  match calls with
  | [] => ([], st)
  | c :: calls' =>
      let (r, st') := PublishEventMutation (call_send c) (call_user c) (call_now c) id st in
      let (rs, st'') := publish_each id calls' st' in
      (r :: rs, st'')
  end.

(** ** Reading the store *)

(** The child holds an enrolment in some occurrence of the event. *)
Definition already_joined (st : Store) (child event : nat) : Prop :=
  ∃ r o, r ∈ enrolments st ∧ enrolment_child r = child ∧
         occurrences st !! enrolment_occurrence r = Some o ∧ event_id o = event.

(** The number of enrolments of an occurrence. *)
Definition enrolment_count (st : Store) (occurrence : nat) : nat :=
  length (occurrence_enrolments st occurrence).

(** The child is enrolled in the occurrence. *)
Definition enrolled (st : Store) (child occurrence : nat) : Prop :=
  ∃ r, r ∈ enrolments st ∧ enrolment_child r = child ∧
       enrolment_occurrence r = occurrence.

(** A child holds at most one enrolment per event, over all the
    occurrences of the event. *)
Definition one_enrolment_per_event (st : Store) : Prop :=
  ∀ child event, (length (joined_occurrences st child event) ≤ 1)%nat.

(** The association an enrolment row records. *)
Definition association (r : Enrolment) : nat * nat :=
  (enrolment_child r, enrolment_occurrence r).

(** The row [Enrolment.objects.create] adds, and the store after it. *)
Definition new_enrolment (st : Store) (now : Z) (child occurrence : nat) : Enrolment :=
  {| enrolment_id := enrolment_seq st; enrolment_child := child;
     enrolment_occurrence := occurrence; created_at := now |}.

Definition enrol_store (st : Store) (now : Z) (child occurrence : nat) : Store :=
  set_enrolments st (enrolments st ++ [new_enrolment st now child occurrence])
                 (S (enrolment_seq st)).

(** The rows that link the child and the occurrence, and the store once
    [occurrence.children.remove(child)] has deleted them. *)
Definition links (child occurrence : nat) (r : Enrolment) : Prop :=
  enrolment_occurrence r = occurrence ∧ enrolment_child r = child.

Definition unenrol_store (st : Store) (child occurrence : nat) : Store :=
  set_enrolments st (filter (fun r => ¬ links child occurrence r) (enrolments st))
                 (enrolment_seq st).

Definition CHILD_ALREADY_JOINED : exn :=
  KukkuuGraphQLError "Child already joined this event".
Definition MAXIMUM_ENROLMENTS : exn :=
  KukkuuGraphQLError "Maximum enrolments created".
Definition OCCURRENCE_IN_THE_PAST : exn :=
  KukkuuGraphQLError "Cannot join occurrence in the past".
Definition ALREADY_PUBLISHED : exn :=
  KukkuuGraphQLError "Event is already published".

(** An upper-case ASCII letter. *)
Definition is_upper (c : N) : Prop := (65 ≤ c ≤ 90)%N.

(** Two code points that are the same letter in either case: they are
    equal, or one is the lower-case form of the other. *)
Definition same_letter (unicode : CaseTables) (a b : N) : Prop :=
  a = b ∨
  (is_space a = false ∧ is_space b = false ∧
   ((to_lower unicode a = [b] ∧ to_lower unicode b = [b]) ∨
    (to_lower unicode b = [a] ∧ to_lower unicode a = [a]))).

(** Two filter values that differ only in letter case. *)
Definition differ_only_in_case (unicode : CaseTables) (v1 v2 : list N) : Prop :=
  Forall2 (same_letter unicode) v1 v2.

(** The rows of the Unicode database for the Greek letters alpha and
    sigma: capital alpha (913) is cased, not case-ignorable and lowers to
    small alpha (945); capital sigma lowers to small sigma. *)
Definition greek_rows (unicode : CaseTables) : Prop :=
  to_lower unicode 913 = [945%N] ∧ to_lower unicode 945 = [945%N] ∧
  to_lower unicode CAPITAL_SIGMA = [SMALL_SIGMA] ∧
  to_lower unicode SMALL_SIGMA = [SMALL_SIGMA] ∧
  is_cased unicode 913 = true ∧ is_case_ignorable unicode 913 = false.

(** No code point lowers to an upper-case ASCII letter. *)
Definition lowers_to_no_capital (unicode : CaseTables) : Prop :=
  ∀ c d, d ∈ to_lower unicode c → ¬ is_upper d.

(** The rows for ASCII and for the Greek letters alpha and sigma; every
    other code point is taken as caseless. *)
Definition ascii_greek : CaseTables :=
  {| to_lower c :=
       if ((65 <=? c) && (c <=? 90))%N then [(c + 32)%N]
       else if (c =? 913)%N then [945%N]
       else if (c =? CAPITAL_SIGMA)%N then [SMALL_SIGMA]
       else [c];
     is_cased c :=
       ((65 <=? c) && (c <=? 90) || (97 <=? c) && (c <=? 122)
        || (c =? 913) || (c =? 945) || (962 <=? c) && (c <=? 963)
        || (c =? CAPITAL_SIGMA))%N;
     is_case_ignorable c :=
       ((c =? 39) || (c =? 46) || (c =? 58) || (c =? 94) || (c =? 96))%N |}.

Definition only_upcoming : OccurrenceFilter :=
  {| upcoming := Some true; venue_global_id := None;
     event_global_id := None; language := None |}.

Definition set_language (args : OccurrenceFilter) (value : list N) : OccurrenceFilter :=
  {| upcoming := upcoming args; venue_global_id := venue_global_id args;
     event_global_id := event_global_id args; language := Some value |}.

(** ** A small store to run the mutations on *)

Definition guardian7 : User :=
  {| user_id := 7; is_authenticated := true; is_staff := false |}.

Definition staff1 : User :=
  {| user_id := 1; is_authenticated := true; is_staff := true |}.

Definition draft (capacity : Z) : Event :=
  {| duration := 60; participants_per_invite := FAMILY;
     capacity_per_occurrence := capacity; published_at := None |}.

Definition demo : Store :=
  {| events := {[ 1%nat := draft 2; 2%nat := draft 1 ]};
     occurrences :=
       {[ 10%nat := {| time := 100; event_id := 1; venue_id := 1;
                       occurrence_language := text "fi" |};
          11%nat := {| time := 200; event_id := 1; venue_id := 1;
                       occurrence_language := text "sv" |};
          12%nat := {| time := 50; event_id := 2; venue_id := 1;
                       occurrence_language := text "fi" |} ]};
     children := {[ 1%nat := {| first_name := "A" |};
                    2%nat := {| first_name := "B" |};
                    3%nat := {| first_name := "C" |} ]};
     guardians := [ {| guardian_user := 7; guardian_children := [1; 2; 3]%nat |} ];
     enrolments := [];
     enrolment_seq := 0 |}.

(** Child 1 and child 2 in occurrence 10, child 1 also in occurrence 12 of
    the other event. *)
Definition demo_enrolled : Store :=
  enrol_store (enrol_store (enrol_store demo 40 1 10) 41 2 10) 42 1 12.

(** The dispatch that always goes through, and one that does not. *)
Definition send_ok (_ : instance Event) (_ : NotificationType) (_ : list Guardian)
  : result unit := Ok tt.

Definition send_fails (_ : instance Event) (_ : NotificationType) (_ : list Guardian)
  : result unit := Raise (NotificationError "mail server unreachable").

(** Child 1 joins occurrence 10, tries occurrence 11 of the same event,
    leaves occurrence 10 and then joins occurrence 11. *)
Definition demo_requests : list request :=
  [ Enrol guardian7 40 10 1; Enrol guardian7 41 11 1;
    Unenrol guardian7 10 1; Enrol guardian7 42 11 1 ].

(** Two further publish requests: one by staff, one by a guardian. *)
Definition demo_calls : list publish_call :=
  [ {| call_send := send_ok; call_user := staff1; call_now := 80 |};
    {| call_send := send_ok; call_user := guardian7; call_now := 90 |} ].

(** ** Occurrence and event administration *)

Definition set_occurrences (st : Store) (occs : gmap nat Occurrence) : Store :=
  {| events := events st; occurrences := occs; children := children st;
     guardians := guardians st; enrolments := enrolments st;
     enrolment_seq := enrolment_seq st |}.

(** [Occurrence.objects.create(time=..., event_id=..., venue_id=...)]: the
    database picks a key that is not in the table, and the language column
    takes the default of the model, which is declared in events/models.py
    and is a parameter here. *)
Definition Occurrence_objects_create (default_language : list N)
    (time : Z) (event_id venue_id : nat) : M (instance Occurrence) :=
  fun st =>
    let key := fresh (dom (occurrences st)) in
    let o := {| time := time; event_id := event_id; venue_id := venue_id;
                occurrence_language := default_language |} in
    (Ok (Instance key o), set_occurrences st (<[key := o]> (occurrences st))).

(** Modelled from the spec: the [on_delete] rules are declared in
    events/models.py, which is not among the sources; deleting an
    occurrence deletes the enrolments that link to it. *)
Definition Occurrence_delete (occurrence : instance Occurrence) : M unit :=
  modify (fun st =>
    {| events := events st;
       occurrences := delete (pk occurrence) (occurrences st);
       children := children st; guardians := guardians st;
       enrolments := filter (fun r => enrolment_occurrence r ≠ pk occurrence)
                            (enrolments st);
       enrolment_seq := enrolment_seq st |}).

(** The occurrence with this key belongs to the event. *)
Definition occurrence_of_event (st : Store) (event occurrence : nat) : Prop :=
  ∃ o, occurrences st !! occurrence = Some o ∧ event_id o = event.

#[global] Instance occurrence_of_event_dec st event occurrence :
  Decision (occurrence_of_event st event occurrence).
Proof.
  unfold occurrence_of_event.
  destruct (occurrences st !! occurrence) as [o|].
  - destruct (decide (event_id o = event)) as [He|He].
    + left. by exists o.
    + right. intros (o' & [= <-] & He'). done.
  - right. intros (o' & Ho & _). done.
Defined.

(** Modelled from the spec: the [on_delete] rules are declared in
    events/models.py, which is not among the sources; deleting an event
    cascades to its occurrences and to their enrolments. *)
Definition Event_delete (event : instance Event) : M unit :=
  modify (fun st =>
    {| events := delete (pk event) (events st);
       occurrences := filter (fun kv => event_id kv.2 ≠ pk event) (occurrences st);
       children := children st; guardians := guardians st;
       enrolments := filter (fun r => ¬ occurrence_of_event st (pk event)
                                         (enrolment_occurrence r))
                            (enrolments st);
       enrolment_seq := enrolment_seq st |}).

Section Administration.

(** The keys of the venue table, which belongs to the venues application;
    the mutations here only test a key for presence. *)
Variable venues : gset nat.

(** The default of the [occurrence_language] column. *)
Variable default_language : list N.

(** [Venue.objects.get(pk=venue_id)] *)
Definition Venue_objects_get (venue_id : nat) : M nat :=
  fun st => if decide (venue_id ∈ venues) then (Ok venue_id, st)
            else (Raise (DoesNotExist "Venue"), st).

(** [AddOccurrenceMutation.mutate_and_get_payload] *)
Definition AddOccurrenceMutation (user : User) (time : Z) (event_id venue_id : nat)
  : M (instance Occurrence) :=
  staff_member_required user (transaction_atomic (
    try_except_DoesNotExist "Event" (objects_get "Event" events event_id);;
    try_except_DoesNotExist "Venue" (Venue_objects_get venue_id);;
    Occurrence_objects_create default_language time event_id venue_id)).

End Administration.

(** [DeleteOccurrenceMutation.mutate_and_get_payload] *)
Definition DeleteOccurrenceMutation (user : User) (id : nat) : M unit :=
  staff_member_required user (transaction_atomic (
    try_except_DoesNotExist "Occurrence" (
      occurrence ← objects_get "Occurrence" occurrences id;
      Occurrence_delete occurrence))).

(** [DeleteEventMutation.mutate_and_get_payload] *)
Definition DeleteEventMutation (user : User) (id : nat) : M unit :=
  staff_member_required user (transaction_atomic (
    try_except_DoesNotExist "Event" (
      event ← objects_get "Event" events id;
      Event_delete event))).

(** ** More ways to read the store *)

(** No occurrence holds more enrolments than its event allows. *)
Definition capacity_respected (st : Store) : Prop :=
  ∀ oid o ev,
    occurrences st !! oid = Some o → events st !! event_id o = Some ev →
    Z.of_nat (enrolment_count st oid) ≤ capacity_per_occurrence ev.

(** The foreign keys resolve: every enrolment points to a stored
    occurrence and every occurrence to a stored event. *)
Definition referential_integrity (st : Store) : Prop :=
  (∀ r, r ∈ enrolments st → is_Some (occurrences st !! enrolment_occurrence r)) ∧
  (∀ oid o, occurrences st !! oid = Some o → is_Some (events st !! event_id o)).

(** Enrol requests for one occurrence by one user, one child after the
    other. *)
Fixpoint enrol_each (user : User) (now : Z) (occurrence_id : nat)
    (child_ids : list nat) (st : Store) : list (result Enrolment) * Store :=
  match child_ids with
  | [] => ([], st)
  | c :: cs =>
      let (r, st') := EnrolOccurrenceMutation user now occurrence_id c st in
      let (rs, st'') := enrol_each user now occurrence_id cs st' in
      (r :: rs, st'')
  end.

Definition is_Ok {A} (r : result A) : Prop :=
  match r with Ok _ => True | Raise _ => False end.

(** The text holds an upper-case ASCII letter. *)
Fixpoint has_upper (s : list N) : Prop :=
  match s with
  | [] => False
  | c :: s' => is_upper c ∨ has_upper s'
  end.

(** What the arguments of the occurrences query ask of an occurrence. *)
Definition selected (unicode : CaseTables) (now : Z) (args : OccurrenceFilter)
    (o : instance Occurrence) : Prop :=
  (upcoming args = Some true → time (fields o) >= now) ∧
  (∀ v, venue_global_id args = Some v → venue_id (fields o) = v) ∧
  (∀ e, event_global_id args = Some e → event_id (fields o) = e) ∧
  (∀ l, language args = Some l → str_strip l ≠ [] →
        occurrence_language (fields o) = str_lower unicode (str_strip l)).

(** The store with the publication time of one event overwritten. *)
Definition with_published_at (st : Store) (id : nat) (value : option Z) : Store :=
  set_events st (alter (fun ev => set_published_at ev value) id (events st)).

(** A dispatch that cannot find the event it is called for. *)
Definition send_event_gone (_ : instance Event) (_ : NotificationType)
    (_ : list Guardian) : result unit := Raise (DoesNotExist "Event").

(** Occurrence 12 filled at time 40 by child 2. *)
Definition demo_full : Store := enrol_store demo 40 2 12.

Definition demo_venues : gset nat := {[ 1%nat ]}.

Definition anonymous : User :=
  {| user_id := 0; is_authenticated := false; is_staff := false |}.

(** A guardian without children in the store. *)
Definition guardian8 : User :=
  {| user_id := 8; is_authenticated := true; is_staff := false |}.

Definition NOT_FOUND (model : string) : exn :=
  KukkuuGraphQLError (str_DoesNotExist model).

(** The store with the capacity of one event overwritten. *)
Definition with_capacity (st : Store) (id : nat) (capacity : Z) : Store :=
  set_events st (alter (fun ev =>
    {| duration := duration ev;
       participants_per_invite := participants_per_invite ev;
       capacity_per_occurrence := capacity;
       published_at := published_at ev |}) id (events st)).

(** Past occurrences included, Finnish only, the value padded with
    blanks. *)
Definition demo_filter : OccurrenceFilter :=
  {| upcoming := Some false; venue_global_id := Some 1%nat;
     event_global_id := None; language := Some (text " Fi ") |}.

(** An occurrence stored with the language "ασ" (945, 963). *)
Definition stored_greek : instance Occurrence :=
  Instance 30 {| time := 100; event_id := 1; venue_id := 1;
                 occurrence_language := [945; SMALL_SIGMA]%N |}.

(** An occurrence stored with its language in upper case. *)
Definition stored_upper : instance Occurrence :=
  Instance 20 {| time := 100; event_id := 1; venue_id := 1;
                 occurrence_language := text "FI" |}.

(** ** Two Enrol requests for one occurrence *)

(** The body of [EnrolOccurrenceMutation] up to and including the call of
    [validate_enrolment]: the look-ups and the checks, which only read the
    store. *)
Definition enrol_checks (user : User) (now : Z) (occurrence_id child_id : nat)
  : M (instance Child * instance Occurrence) :=
  login_required user (transaction_atomic (
    occurrence ← try_except_DoesNotExist "Occurrence"
                    (objects_get "Occurrence" occurrences occurrence_id);
    child ← try_except_DoesNotExist "Child"
               (Child_objects_user_can_update_get user child_id);
    validate_enrolment now child occurrence;;
    mret (child, occurrence))).

(** The rest of the body, [Enrolment.objects.create], for a request whose
    checks have passed; a request whose checks raised has ended there. *)
Definition enrol_insert (now : Z)
    (checked : result (instance Child * instance Occurrence)) : M Enrolment :=
  match checked with
  | Ok (child, occurrence) => Enrolment_objects_create now child occurrence
  | Raise e => raise e
  end.

Record enrol_request := {
  request_user : User;
  request_now : Z;
  request_child : nat
}.

(** The order in which the steps of two requests reach the database. The
    code takes no lock and does not select for update, so the checks of one
    request may run before the other has inserted its row. *)
Inductive schedule :=
| first_then_second
| second_then_first
| checks_then_inserts.

Definition enrol_two (s : schedule) (occurrence_id : nat) (rq1 rq2 : enrol_request)
    (st : Store) : result Enrolment * result Enrolment * Store :=
  match s with
  | first_then_second =>
      let (r1, st1) := EnrolOccurrenceMutation (request_user rq1) (request_now rq1)
                         occurrence_id (request_child rq1) st in
      let (r2, st2) := EnrolOccurrenceMutation (request_user rq2) (request_now rq2)
                         occurrence_id (request_child rq2) st1 in
      (r1, r2, st2)
  | second_then_first =>
      let (r2, st1) := EnrolOccurrenceMutation (request_user rq2) (request_now rq2)
                         occurrence_id (request_child rq2) st in
      let (r1, st2) := EnrolOccurrenceMutation (request_user rq1) (request_now rq1)
                         occurrence_id (request_child rq1) st1 in
      (r1, r2, st2)
  | checks_then_inserts =>
      let (c1, st1) := enrol_checks (request_user rq1) (request_now rq1)
                         occurrence_id (request_child rq1) st in
      let (c2, st2) := enrol_checks (request_user rq2) (request_now rq2)
                         occurrence_id (request_child rq2) st1 in
      let (r1, st3) := enrol_insert (request_now rq1) c1 st2 in
      let (r2, st4) := enrol_insert (request_now rq2) c2 st3 in
      (r1, r2, st4)
  end.

(** One request after the other. *)
Definition serial (s : schedule) : Prop := s ≠ checks_then_inserts.

(** The request comes from an authenticated guardian of a stored child
    that has not joined the event, for an occurrence that is not in the
    past. *)
Definition eligible (st : Store) (o : Occurrence) (rq : enrol_request) : Prop :=
  is_authenticated (request_user rq) = true ∧
  is_Some (children st !! request_child rq) ∧
  user_can_update st (request_user rq) (request_child rq) = true ∧
  ¬ already_joined st (request_child rq) (event_id o) ∧
  request_now rq ≤ time o.

(** One request succeeds and the other is refused for lack of capacity. *)
Definition exactly_one_enrolled (r1 r2 : result Enrolment) : Prop :=
  (is_Ok r1 ∧ r2 = Raise MAXIMUM_ENROLMENTS) ∨
  (r1 = Raise MAXIMUM_ENROLMENTS ∧ is_Ok r2).

(** Guardian 7 asks for child 1 and for child 2 at time 45. *)
Definition demo_request (child : nat) : enrol_request :=
  {| request_user := guardian7; request_now := 45; request_child := child |}.

(** * Properties *)

Ltac run_monad :=
  unfold mbind, mret, M_bind, M_ret, bind, ret, raise, gets, modify,
    objects_get, transaction_atomic, try_except_DoesNotExist,
    login_required, staff_member_required, user_passes_test in *.

(** ** The child's occurrences *)

Lemma elem_of_child_occurrences st child o :
  o ∈ child_occurrences st child ↔
  ∃ r, r ∈ enrolments st ∧ enrolment_child r = child ∧
       enrolment_occurrence r = pk o ∧ occurrences st !! pk o = Some (fields o).
Proof.
  unfold child_occurrences. rewrite list_elem_of_omap. split.
  - intros (r & Hr & Ho). exists r. case_decide; [|done].
    destruct (occurrences st !! enrolment_occurrence r) eqn:E; simplify_eq/=.
    done.
  - intros (r & Hr & Hc & Hp & Ho). exists r. split; [done|].
    rewrite decide_True by done. rewrite Hp, Ho. by destruct o.
Qed.

Lemma joined_occurrences_nonempty st child event :
  joined_occurrences st child event ≠ [] ↔ already_joined st child event.
Proof.
  unfold joined_occurrences. split.
  - intros Hne.
    destruct (filter _ (child_occurrences st child)) as [|o l] eqn:E; [done|].
    assert (Ho : o ∈ filter (fun o : instance Occurrence => event_id (fields o) = event)
                        (child_occurrences st child)) by (rewrite E; left).
    apply list_elem_of_filter in Ho as [Hev Ho].
    apply elem_of_child_occurrences in Ho as (r & Hr & Hc & Hp & Hl).
    exists r, (fields o). rewrite Hp. done.
  - intros (r & o & Hr & Hc & Ho & Hev) Hnil.
    assert (Hin : Instance (enrolment_occurrence r) o ∈
              filter (fun o : instance Occurrence => event_id (fields o) = event)
                     (child_occurrences st child)).
    { apply list_elem_of_filter. split; [done|].
      apply elem_of_child_occurrences. exists r. done. }
    rewrite Hnil in Hin. by apply elem_of_nil in Hin.
Qed.

(** ** Enrolment *)

(** What [EnrolOccurrenceMutation] does once the request is authenticated
    and the look-ups succeed: the three checks of [validate_enrolment], in
    the order of the source, then the insertion. *)
Lemma enrol_found st user now oid cid o c ev :
  is_authenticated user = true →
  occurrences st !! oid = Some o →
  children st !! cid = Some c →
  user_can_update st user cid = true →
  events st !! event_id o = Some ev →
  EnrolOccurrenceMutation user now oid cid st =
    if decide (joined_occurrences st cid (event_id o) ≠ [])
    then (Raise CHILD_ALREADY_JOINED, st)
    else if decide (Z.of_nat (enrolment_count st oid) >= capacity_per_occurrence ev)
         then (Raise MAXIMUM_ENROLMENTS, st)
    else if decide (time o < now) then (Raise OCCURRENCE_IN_THE_PAST, st)
    else (Ok (new_enrolment st now cid oid), enrol_store st now cid oid).
Proof.
  intros Hu Ho Hc Hg He.
  unfold EnrolOccurrenceMutation, validate_enrolment, occurrence_event,
    Child_objects_user_can_update_get, Enrolment_objects_create.
  run_monad. rewrite Hu, Ho. simpl. rewrite Hc, Hg. simpl. rewrite He. simpl.
  fold (enrolment_count st oid).
  repeat case_decide; repeat case_bool_decide; done.
Qed.

(** Whatever the request, [EnrolOccurrenceMutation] either leaves the store
    as it was or appends one row, and the latter only after every check. *)
Lemma enrol_cases st user now oid cid :
  (∃ e, EnrolOccurrenceMutation user now oid cid st = (Raise e, st)) ∨
  (∃ o ev, occurrences st !! oid = Some o ∧ events st !! event_id o = Some ev ∧
           joined_occurrences st cid (event_id o) = [] ∧
           Z.of_nat (enrolment_count st oid) < capacity_per_occurrence ev ∧
           now ≤ time o ∧
           EnrolOccurrenceMutation user now oid cid st =
             (Ok (new_enrolment st now cid oid), enrol_store st now cid oid)).
Proof.
  destruct (is_authenticated user) eqn:Hu; cycle 1.
  { left. eexists. unfold EnrolOccurrenceMutation. run_monad. by rewrite Hu. }
  destruct (occurrences st !! oid) as [o|] eqn:Ho; cycle 1.
  { left. eexists. unfold EnrolOccurrenceMutation. run_monad.
    rewrite Hu, Ho. simpl. done. }
  destruct (children st !! cid) as [c|] eqn:Hc; cycle 1.
  { left. eexists. unfold EnrolOccurrenceMutation, Child_objects_user_can_update_get.
    run_monad. rewrite Hu, Ho. simpl. rewrite Hc. simpl. done. }
  destruct (user_can_update st user cid) eqn:Hg; cycle 1.
  { left. eexists. unfold EnrolOccurrenceMutation, Child_objects_user_can_update_get.
    run_monad. rewrite Hu, Ho. simpl. rewrite Hc, Hg. simpl. done. }
  destruct (events st !! event_id o) as [ev|] eqn:He; cycle 1.
  { left. eexists.
    unfold EnrolOccurrenceMutation, Child_objects_user_can_update_get,
      validate_enrolment, occurrence_event.
    run_monad. rewrite Hu, Ho. simpl. rewrite Hc, Hg. simpl. rewrite He. done. }
  rewrite (enrol_found st user now oid cid o c ev) by done.
  repeat case_decide; try (left; eexists; done).
  right. exists o, ev. repeat split; try done; try lia.
Qed.

Lemma not_already_joined st child event :
  joined_occurrences st child event = [] → ¬ already_joined st child event.
Proof. intros Hnil Hj. by apply joined_occurrences_nonempty in Hj. Qed.

(** C1, as amended. When the request is authenticated, the occurrence, its
    event and the authorised child exist, the child has not joined the event
    and the occurrence is not in the past: the enrolment is created exactly
    when the number of enrolments of the occurrence is strictly below the
    event's capacity, and otherwise the call fails with "Maximum enrolments
    created" and the store is as before. *)
Theorem enrol_iff_below_capacity st user now oid cid o c ev :
  is_authenticated user = true →
  occurrences st !! oid = Some o →
  children st !! cid = Some c →
  user_can_update st user cid = true →
  events st !! event_id o = Some ev →
  ¬ already_joined st cid (event_id o) →
  now ≤ time o →
  ((∃ e st', EnrolOccurrenceMutation user now oid cid st = (Ok e, st') ∧
             association e = (cid, oid) ∧
             enrolments st' = enrolments st ++ [e])
   ↔ Z.of_nat (enrolment_count st oid) < capacity_per_occurrence ev) ∧
  (¬ Z.of_nat (enrolment_count st oid) < capacity_per_occurrence ev →
   EnrolOccurrenceMutation user now oid cid st = (Raise MAXIMUM_ENROLMENTS, st)).
Proof.
  intros Hu Ho Hc Hg He Hj Ht.
  rewrite (enrol_found st user now oid cid o c ev) by done.
  rewrite decide_False by (by rewrite joined_occurrences_nonempty).
  destruct (decide (Z.of_nat (enrolment_count st oid) >= capacity_per_occurrence ev))
    as [Hfull|Hfree].
  - split; [|done]. split; [|lia]. intros (e & st' & Heq & _). discriminate.
  - rewrite decide_False by lia. split; [|lia]. split; [lia|].
    intros _. eexists _, _. split; [reflexivity|]. done.
Qed.

Lemma enrol_iff_below_capacity_witness :
  ((∃ e st', EnrolOccurrenceMutation guardian7 60 10 1 demo = (Ok e, st') ∧
             association e = (1%nat, 10%nat) ∧
             enrolments st' = enrolments demo ++ [e])
   ↔ Z.of_nat (enrolment_count demo 10) < capacity_per_occurrence (draft 2)) ∧
  (¬ Z.of_nat (enrolment_count demo 10) < capacity_per_occurrence (draft 2) →
   EnrolOccurrenceMutation guardian7 60 10 1 demo = (Raise MAXIMUM_ENROLMENTS, demo)).
Proof.
  apply (enrol_iff_below_capacity demo guardian7 60 10 1
           {| time := 100; event_id := 1; venue_id := 1; occurrence_language := text "fi" |}
           {| first_name := "A" |} (draft 2)).
  - reflexivity.
  - reflexivity.
  - reflexivity.
  - reflexivity.
  - reflexivity.
  - apply not_already_joined. reflexivity.
  - simpl. lia.
Defined.

(** C1 as stated fails: with room left in an occurrence whose time has
    passed, no enrolment is created. *)
Lemma enrol_below_capacity_in_the_past :
  ¬ (∀ st user now oid cid o c ev,
       is_authenticated user = true →
       occurrences st !! oid = Some o →
       children st !! cid = Some c →
       user_can_update st user cid = true →
       events st !! event_id o = Some ev →
       ¬ already_joined st cid (event_id o) →
       ((∃ e st', EnrolOccurrenceMutation user now oid cid st = (Ok e, st'))
        ↔ Z.of_nat (enrolment_count st oid) < capacity_per_occurrence ev)).
Proof.
  intros H.
  destruct (H demo guardian7 60 12%nat 1%nat
              {| time := 50; event_id := 2; venue_id := 1; occurrence_language := text "fi" |}
              {| first_name := "A" |} (draft 1)) as [_ Hcreate];
    try reflexivity.
  { apply not_already_joined. reflexivity. }
  destruct Hcreate as (e & st' & Heq); [by vm_compute|].
  vm_compute in Heq. discriminate.
Qed.

(** C3, as amended. Enrolling in an occurrence whose time has passed
    always fails and leaves the store as it was. The failure reported is the
    first that applies, in the order of the checks: "Child already joined
    this event" when the child holds an enrolment in the event, else
    "Maximum enrolments created" when the occurrence is at or over capacity,
    and "Cannot join occurrence in the past" only when neither is the
    case. *)
Theorem enrol_in_the_past_fails st user now oid cid o c ev :
  is_authenticated user = true →
  occurrences st !! oid = Some o →
  children st !! cid = Some c →
  user_can_update st user cid = true →
  events st !! event_id o = Some ev →
  time o < now →
  ∃ e, EnrolOccurrenceMutation user now oid cid st = (Raise e, st) ∧
       (already_joined st cid (event_id o) → e = CHILD_ALREADY_JOINED) ∧
       (¬ already_joined st cid (event_id o) →
        Z.of_nat (enrolment_count st oid) >= capacity_per_occurrence ev →
        e = MAXIMUM_ENROLMENTS) ∧
       (¬ already_joined st cid (event_id o) →
        Z.of_nat (enrolment_count st oid) < capacity_per_occurrence ev →
        e = OCCURRENCE_IN_THE_PAST).
Proof.
  intros Hu Ho Hc Hg He Ht.
  rewrite (enrol_found st user now oid cid o c ev) by done.
  pose proof (joined_occurrences_nonempty st cid (event_id o)) as Hj.
  repeat case_decide; try lia; eexists; (split; [reflexivity|]);
    repeat split; intros; try done; try lia; tauto.
Qed.

Lemma enrol_in_the_past_fails_witness :
  ∃ e, EnrolOccurrenceMutation guardian7 60 12 1 demo = (Raise e, demo) ∧
       (already_joined demo 1 2 → e = CHILD_ALREADY_JOINED) ∧
       (¬ already_joined demo 1 2 →
        Z.of_nat (enrolment_count demo 12) >= capacity_per_occurrence (draft 1) →
        e = MAXIMUM_ENROLMENTS) ∧
       (¬ already_joined demo 1 2 →
        Z.of_nat (enrolment_count demo 12) < capacity_per_occurrence (draft 1) →
        e = OCCURRENCE_IN_THE_PAST).
Proof.
  apply (enrol_in_the_past_fails demo guardian7 60 12 1
           {| time := 50; event_id := 2; venue_id := 1; occurrence_language := text "fi" |}
           {| first_name := "A" |} (draft 1)).
  - reflexivity.
  - reflexivity.
  - reflexivity.
  - reflexivity.
  - reflexivity.
  - simpl. lia.
Defined.

(** C3 as stated fails: a full occurrence whose time has passed reports
    "Maximum enrolments created", since the capacity check comes first. *)
Lemma enrol_in_the_past_reports_capacity :
  ¬ (∀ st user now oid cid o c ev,
       is_authenticated user = true →
       occurrences st !! oid = Some o →
       children st !! cid = Some c →
       user_can_update st user cid = true →
       events st !! event_id o = Some ev →
       time o < now →
       EnrolOccurrenceMutation user now oid cid st = (Raise OCCURRENCE_IN_THE_PAST, st)).
Proof.
  intros H.
  pose (full := enrol_store demo 40 2 12).
  specialize (H full guardian7 60 12%nat 1%nat
                {| time := 50; event_id := 2; venue_id := 1; occurrence_language := text "fi" |}
                {| first_name := "A" |} (draft 1)).
  vm_compute in H.
  assert (Heq : (Raise (A := Enrolment) MAXIMUM_ENROLMENTS, full)
                = (Raise OCCURRENCE_IN_THE_PAST, full)).
  { apply H; reflexivity. }
  vm_compute in Heq. discriminate.
Qed.

(** ** Unenrolment *)

Lemma filter_none_complement {A} (P : A → Prop) `{!∀ x, Decision (P x)} (l : list A) :
  filter P l = [] → filter (fun x => ¬ P x) l = l.
Proof.
  induction l as [|y l IH]; [done|].
  rewrite filter_cons. case_decide; [done|].
  intros Hnil. rewrite filter_cons_True by done. f_equal. auto.
Qed.

(** A list with exactly one element satisfying [P] splits around it. *)
Lemma filter_singleton_split {A} (P : A → Prop) `{!∀ x, Decision (P x)}
    (l : list A) (x : A) :
  filter P l = [x] →
  ∃ l1 l2, l = l1 ++ x :: l2 ∧ P x ∧
           filter (fun y => ¬ P y) l = l1 ++ l2 ∧
           Forall (fun y => ¬ P y) (l1 ++ l2).
Proof.
  induction l as [|y l IH]; [done|].
  rewrite filter_cons. case_decide as Hy.
  - intros [= -> Hnil]. exists [], l. simpl.
    rewrite filter_cons_False by tauto.
    rewrite filter_none_complement by done.
    repeat split; try done.
    apply Forall_forall. intros z Hz Pz.
    by apply (filter_nil_not_elem_of P l z Hnil Pz).
  - intros Hx. destruct (IH Hx) as (l1 & l2 & -> & Px & Hf & Hall).
    exists (y :: l1), l2. simpl. rewrite filter_cons_True by done.
    rewrite Hf. repeat split; try done. by constructor.
Qed.

(** [child.occurrences.filter(pk=occurrence_id)]: one result per row that
    links the child to the occurrence, if the occurrence exists. *)
Lemma child_occurrences_with_pk st cid oid :
  filter (fun o : instance Occurrence => pk o = oid) (child_occurrences st cid) =
  match occurrences st !! oid with
  | Some o => (fun _ => Instance oid o) <$> filter (links cid oid) (enrolments st)
  | None => []
  end.
Proof.
  unfold child_occurrences. induction (enrolments st) as [|r rows IH].
  { by destruct (occurrences st !! oid). }
  cbn [omap list_omap]. rewrite filter_cons. unfold links in *.
  destruct (decide (enrolment_child r = cid)) as [Hc|Hc].
  - destruct (decide (enrolment_occurrence r = oid)) as [Ho|Ho].
    + rewrite Ho. destruct (occurrences st !! oid) as [o|] eqn:E; simpl.
      * rewrite filter_cons_True by done. rewrite decide_True by done.
        rewrite fmap_cons. by f_equal.
      * by rewrite IH.
    + rewrite decide_False by tauto.
      destruct (occurrences st !! enrolment_occurrence r) as [o'|]; simpl.
      * rewrite filter_cons_False by done. done.
      * done.
  - rewrite decide_False by tauto. done.
Qed.

(** What [UnenrolOccurrenceMutation] does once the request is authenticated
    and the authorised child is found: [get] on the child's occurrences with
    the given key, then the removal. *)
Lemma unenrol_found st user oid cid c o :
  is_authenticated user = true →
  children st !! cid = Some c →
  user_can_update st user cid = true →
  occurrences st !! oid = Some o →
  UnenrolOccurrenceMutation user oid cid st =
    match filter (links cid oid) (enrolments st) with
    | [] => (Raise (KukkuuGraphQLError (str_DoesNotExist "Occurrence")), st)
    | [_] => (Ok tt, unenrol_store st cid oid)
    | _ => (Raise (MultipleObjectsReturned "Occurrence"), st)
    end.
Proof.
  intros Hu Hc Hg Ho.
  unfold UnenrolOccurrenceMutation, Child_objects_user_can_update_get,
    occurrence_children_remove.
  run_monad. rewrite Hu, Hc, Hg. cbn [pk].
  rewrite child_occurrences_with_pk, Ho.
  by destruct (filter (links cid oid) (enrolments st)) as [|r [|r' rows]].
Qed.

(** Whatever the request, [UnenrolOccurrenceMutation] either raises and
    leaves the store as it was, or found exactly one row linking the child
    to the occurrence and deleted it. *)
Lemma unenrol_cases st user oid cid :
  (∃ e, UnenrolOccurrenceMutation user oid cid st = (Raise e, st)) ∨
  (∃ r, filter (links cid oid) (enrolments st) = [r] ∧
        UnenrolOccurrenceMutation user oid cid st = (Ok tt, unenrol_store st cid oid)).
Proof.
  destruct (is_authenticated user) eqn:Hu; cycle 1.
  { left. eexists. unfold UnenrolOccurrenceMutation. run_monad. by rewrite Hu. }
  destruct (children st !! cid) as [c|] eqn:Hc; cycle 1.
  { left. eexists. unfold UnenrolOccurrenceMutation, Child_objects_user_can_update_get.
    run_monad. by rewrite Hu, Hc. }
  destruct (user_can_update st user cid) eqn:Hg; cycle 1.
  { left. eexists. unfold UnenrolOccurrenceMutation, Child_objects_user_can_update_get.
    run_monad. by rewrite Hu, Hc, Hg. }
  destruct (occurrences st !! oid) as [o|] eqn:Ho; cycle 1.
  { left. eexists. unfold UnenrolOccurrenceMutation, Child_objects_user_can_update_get.
    run_monad. rewrite Hu, Hc, Hg. cbn [pk].
    rewrite child_occurrences_with_pk, Ho. done. }
  rewrite (unenrol_found st user oid cid c o) by done.
  destruct (filter (links cid oid) (enrolments st)) as [|r [|r' rows]].
  - left. by eexists.
  - right. by exists r.
  - left. by eexists.
Qed.

(** C10. A successful Unenrol removes exactly one enrolment row, the one
    that links the child to the occurrence: the rows before and after it
    stay as they were and in their order, none of them links the two, and
    the occurrence, child, event and guardian tables are untouched. *)
Theorem unenrol_removes_one_association st user oid cid st' :
  UnenrolOccurrenceMutation user oid cid st = (Ok tt, st') →
  (∃ before r after,
     enrolments st = before ++ r :: after ∧
     association r = (cid, oid) ∧
     enrolments st' = before ++ after ∧
     Forall (fun r' => association r' ≠ (cid, oid)) (before ++ after)) ∧
  occurrences st' = occurrences st ∧ children st' = children st ∧
  events st' = events st ∧ guardians st' = guardians st.
Proof.
  intros Hrun.
  destruct (unenrol_cases st user oid cid) as [[e He]|(r & Hr & Hok)].
  { rewrite He in Hrun. discriminate. }
  rewrite Hok in Hrun. injection Hrun as <-.
  split; [|done].
  apply filter_singleton_split in Hr as (l1 & l2 & Hrows & [Ho Hc] & Hrest & Hall).
  exists l1, r, l2. repeat split.
  - done.
  - unfold association. by rewrite Ho, Hc.
  - done.
  - eapply Forall_impl; [exact Hall|]. intros r' Hn [= Hc' Ho'].
    apply Hn. by split.
Qed.

Lemma unenrol_removes_one_association_witness :
  (∃ before r after,
     enrolments demo_enrolled = before ++ r :: after ∧
     association r = (1%nat, 10%nat) ∧
     enrolments (unenrol_store demo_enrolled 1 10) = before ++ after ∧
     Forall (fun r' => association r' ≠ (1%nat, 10%nat)) (before ++ after)) ∧
  occurrences (unenrol_store demo_enrolled 1 10) = occurrences demo_enrolled ∧
  children (unenrol_store demo_enrolled 1 10) = children demo_enrolled ∧
  events (unenrol_store demo_enrolled 1 10) = events demo_enrolled ∧
  guardians (unenrol_store demo_enrolled 1 10) = guardians demo_enrolled.
Proof.
  apply (unenrol_removes_one_association demo_enrolled guardian7 10 1).
  reflexivity.
Defined.

(** ** One enrolment per child and event *)

Lemma joined_enrol_store st now cid oid o child event :
  occurrences st !! oid = Some o →
  joined_occurrences (enrol_store st now cid oid) child event =
  joined_occurrences st child event ++
    (if decide (cid = child ∧ event_id o = event) then [Instance oid o] else []).
Proof.
  intros Ho. unfold joined_occurrences, child_occurrences. simpl.
  rewrite omap_app, filter_app. f_equal. simpl.
  destruct (decide (cid = child)) as [Hc|Hc]; simpl.
  - rewrite Ho. simpl. rewrite filter_cons. simpl.
    destruct (decide (event_id o = event)).
    + by rewrite decide_True.
    + by rewrite decide_False by tauto.
  - by rewrite decide_False by tauto.
Qed.

(** Removing the rows that link [cid] to [oid] takes away from the child's
    occurrences in the event exactly the entries of those rows. *)
Lemma joined_unenrol_store st cid oid child event :
  length (joined_occurrences st child event) =
  (length (joined_occurrences (unenrol_store st cid oid) child event) +
   match occurrences st !! oid with
   | Some o => if decide (cid = child ∧ event_id o = event)
               then length (filter (links cid oid) (enrolments st)) else 0
   | None => 0
   end)%nat.
Proof.
  unfold joined_occurrences, child_occurrences. simpl.
  induction (enrolments st) as [|r rows IH].
  { simpl. destruct (occurrences st !! oid); [case_decide|]; done. }
  rewrite !(filter_cons _ r). unfold links in *.
  destruct (decide (enrolment_occurrence r = oid ∧ enrolment_child r = cid))
    as [[Ho Hc]|Hn].
  - rewrite decide_False by tauto. cbn [omap list_omap].
    rewrite Ho. destruct (occurrences st !! oid) as [o|] eqn:E.
    + destruct (decide (enrolment_child r = child)) as [Hch|Hch]; simpl.
      * rewrite filter_cons. simpl.
        destruct (decide (event_id o = event)) as [He|He].
        -- rewrite decide_True in IH |- * by (split; congruence).
           simpl. rewrite IH. lia.
        -- rewrite decide_False in IH |- * by tauto. done.
      * rewrite decide_False in IH |- * by (intros [? ?]; congruence). done.
    + destruct (decide (enrolment_child r = child)); simpl; done.
  - rewrite decide_True by done. cbn [omap list_omap].
    destruct (decide (enrolment_child r = child)); simpl; [|done].
    destruct (occurrences st !! enrolment_occurrence r) as [o'|]; simpl; [|done].
    rewrite !filter_cons. simpl.
    destruct (decide (event_id o' = event)); simpl; [|done].
    rewrite IH. done.
Qed.

Lemma enrol_keeps_one_per_event st now cid oid o :
  one_enrolment_per_event st →
  occurrences st !! oid = Some o →
  joined_occurrences st cid (event_id o) = [] →
  one_enrolment_per_event (enrol_store st now cid oid).
Proof.
  intros Hinv Ho Hnil child event.
  rewrite (joined_enrol_store st now cid oid o) by done.
  case_decide as Hd.
  - destruct Hd as [<- <-]. rewrite Hnil. simpl. lia.
  - rewrite app_nil_r. apply Hinv.
Qed.

Lemma unenrol_keeps_one_per_event st cid oid :
  one_enrolment_per_event st →
  one_enrolment_per_event (unenrol_store st cid oid).
Proof.
  intros Hinv child event. specialize (Hinv child event).
  rewrite (joined_unenrol_store st cid oid) in Hinv. lia.
Qed.

Lemma handle_keeps_one_per_event st rq :
  one_enrolment_per_event st → one_enrolment_per_event (handle st rq).
Proof.
  intros Hinv. destruct rq as [user now oid cid|user oid cid]; simpl.
  - destruct (enrol_cases st user now oid cid)
      as [[e ->]|(o & ev & Ho & _ & Hnil & _ & _ & ->)]; simpl; [done|].
    by eapply enrol_keeps_one_per_event.
  - destruct (unenrol_cases st user oid cid) as [[e ->]|(r & _ & ->)]; simpl; [done|].
    by apply unenrol_keeps_one_per_event.
Qed.

(** C2. From a store in which every child holds at most one enrolment per
    event, every store reached by Enrol and Unenrol requests is again such
    a store; and in it an Enrol request for a child that already holds an
    enrolment in some occurrence of the target occurrence's event raises
    "Child already joined this event" and leaves the store as it was. *)
Theorem one_enrolment_per_event_kept st0 rqs :
  one_enrolment_per_event st0 →
  one_enrolment_per_event (run_requests st0 rqs) ∧
  ∀ user now oid cid o c ev,
    is_authenticated user = true →
    occurrences (run_requests st0 rqs) !! oid = Some o →
    children (run_requests st0 rqs) !! cid = Some c →
    user_can_update (run_requests st0 rqs) user cid = true →
    events (run_requests st0 rqs) !! event_id o = Some ev →
    already_joined (run_requests st0 rqs) cid (event_id o) →
    EnrolOccurrenceMutation user now oid cid (run_requests st0 rqs) =
      (Raise CHILD_ALREADY_JOINED, run_requests st0 rqs).
Proof.
  intros Hinv. split.
  - revert st0 Hinv. unfold run_requests.
    induction rqs as [|rq rqs IH]; intros st0 Hinv; simpl; [done|].
    apply IH. by apply handle_keeps_one_per_event.
  - intros user now oid cid o c ev Hu Ho Hc Hg He Hj.
    rewrite (enrol_found _ user now oid cid o c ev) by done.
    by rewrite decide_True by (by apply joined_occurrences_nonempty).
Qed.

Example demo_requests_run :
  association <$> enrolments (run_requests demo demo_requests) = [(1%nat, 11%nat)].
Proof. reflexivity. Qed.

Lemma one_enrolment_per_event_kept_witness :
  one_enrolment_per_event (run_requests demo demo_requests) ∧
  ∀ user now oid cid o c ev,
    is_authenticated user = true →
    occurrences (run_requests demo demo_requests) !! oid = Some o →
    children (run_requests demo demo_requests) !! cid = Some c →
    user_can_update (run_requests demo demo_requests) user cid = true →
    events (run_requests demo demo_requests) !! event_id o = Some ev →
    already_joined (run_requests demo demo_requests) cid (event_id o) →
    EnrolOccurrenceMutation user now oid cid (run_requests demo demo_requests) =
      (Raise CHILD_ALREADY_JOINED, run_requests demo demo_requests).
Proof.
  apply (one_enrolment_per_event_kept demo demo_requests).
  intros child event. vm_compute. lia.
Defined.

(** ** Unenrol, then enrol again *)

(** Every row linking the child to an occurrence of the event is one of the
    child's occurrences in that event. *)
Lemma links_le_joined st cid oid o :
  occurrences st !! oid = Some o →
  (length (filter (links cid oid) (enrolments st)) ≤
   length (joined_occurrences st cid (event_id o)))%nat.
Proof.
  intros Ho.
  pose proof (joined_unenrol_store st cid oid cid (event_id o)) as H.
  rewrite Ho, decide_True in H by done. lia.
Qed.

Lemma enrolled_links st cid oid :
  enrolled st cid oid → filter (links cid oid) (enrolments st) ≠ [].
Proof.
  intros (r & Hr & Hc & Ho) Hnil.
  eapply (filter_nil_not_elem_of (links cid oid)); [exact Hnil| |exact Hr].
  by split.
Qed.

(** C7. In a store where every child holds at most one enrolment per
    event, let a child be enrolled in an occurrence. Unenrol succeeds; and
    if then the occurrence is not in the past and its enrolment count is
    below the event's capacity, Enrol for the same pair succeeds, the child
    is enrolled in the occurrence again and the associations recorded are
    those from before the Unenrol. *)
Theorem unenrol_then_enrol st user now oid cid c o ev :
  one_enrolment_per_event st →
  is_authenticated user = true →
  children st !! cid = Some c →
  user_can_update st user cid = true →
  occurrences st !! oid = Some o →
  events st !! event_id o = Some ev →
  enrolled st cid oid →
  now ≤ time o →
  Z.of_nat (enrolment_count (unenrol_store st cid oid) oid) < capacity_per_occurrence ev →
  UnenrolOccurrenceMutation user oid cid st = (Ok tt, unenrol_store st cid oid) ∧
  ∃ e st2,
    EnrolOccurrenceMutation user now oid cid (unenrol_store st cid oid) = (Ok e, st2) ∧
    association e = (cid, oid) ∧
    enrolled st2 cid oid ∧
    association <$> enrolments st2 ≡ₚ association <$> enrolments st.
Proof.
  intros Hinv Hu Hc Hg Ho He Hen Ht Hcap.
  pose proof (links_le_joined st cid oid o Ho) as Hle.
  pose proof (Hinv cid (event_id o)) as Hone.
  pose proof (enrolled_links st cid oid Hen) as Hne.
  pose proof (joined_unenrol_store st cid oid cid (event_id o)) as Hsplit.
  rewrite Ho, decide_True in Hsplit by done.
  destruct (filter (links cid oid) (enrolments st)) as [|r [|r' rows]] eqn:Hrows;
    [done| |simpl in *; lia].
  simpl in Hsplit.
  assert (Hnil : joined_occurrences (unenrol_store st cid oid) cid (event_id o) = []).
  { apply length_zero_iff_nil. lia. }
  split.
  { rewrite (unenrol_found st user oid cid c o) by done. by rewrite Hrows. }
  rewrite (enrol_found (unenrol_store st cid oid) user now oid cid o c ev) by done.
  rewrite decide_False by (by rewrite Hnil; intros ?).
  rewrite decide_False by lia. rewrite decide_False by lia.
  eexists _, _. split; [reflexivity|]. split; [reflexivity|]. split.
  - exists (new_enrolment (unenrol_store st cid oid) now cid oid).
    split; [|by split]. simpl. apply elem_of_app. right. left.
  - apply filter_singleton_split in Hrows as (l1 & l2 & Hst & [Hro Hrc] & Hrest & _).
    simpl. rewrite Hrest, Hst. rewrite !fmap_app, fmap_cons. simpl.
    unfold association at 3 5. simpl. rewrite Hro, Hrc.
    rewrite <- app_assoc. apply Permutation_app_head.
    symmetry. apply Permutation_cons_append.
Qed.

Lemma demo_enrolled_one_per_event : one_enrolment_per_event demo_enrolled.
Proof.
  unfold demo_enrolled.
  repeat (eapply enrol_keeps_one_per_event; [|reflexivity|reflexivity]).
  intros child event. vm_compute. lia.
Qed.

Lemma unenrol_then_enrol_witness :
  UnenrolOccurrenceMutation guardian7 10 1 demo_enrolled =
    (Ok tt, unenrol_store demo_enrolled 1 10) ∧
  ∃ e st2,
    EnrolOccurrenceMutation guardian7 50 10 1 (unenrol_store demo_enrolled 1 10)
      = (Ok e, st2) ∧
    association e = (1%nat, 10%nat) ∧
    enrolled st2 1 10 ∧
    association <$> enrolments st2 ≡ₚ association <$> enrolments demo_enrolled.
Proof.
  apply (unenrol_then_enrol demo_enrolled guardian7 50 10 1 {| first_name := "A" |}
           {| time := 100; event_id := 1; venue_id := 1; occurrence_language := text "fi" |}
           (draft 2)).
  - apply demo_enrolled_one_per_event.
  - reflexivity.
  - reflexivity.
  - reflexivity.
  - reflexivity.
  - reflexivity.
  - exists (new_enrolment demo 40 1 10). split; [left|split; reflexivity].
  - simpl. lia.
  - vm_compute. reflexivity.
Defined.

(** ** Publication *)

(** What [PublishEventMutation] does for a staff member once the event is
    found. When the dispatch raises, the transaction is rolled back; the
    handler of the enclosing [try] rewraps [Event.DoesNotExist], anything
    else passes through. *)
Lemma publish_found dispatch user now id ev st :
  is_staff user = true →
  events st !! id = Some ev →
  PublishEventMutation dispatch user now id st =
    match published_at ev with
    | Some _ => (Raise ALREADY_PUBLISHED, st)
    | None =>
        match dispatch (Instance id (set_published_at ev (Some now))) EVENT_PUBLISHED
                   (guardians_with_children st) with
        | Ok _ => (Ok (Instance id (set_published_at ev (Some now))),
                   set_events st (<[id := set_published_at ev (Some now)]> (events st)))
        | Raise (DoesNotExist model) =>
            if decide (model = "Event")
            then (Raise (KukkuuGraphQLError (str_DoesNotExist "Event")), st)
            else (Raise (DoesNotExist model), st)
        | Raise e => (Raise e, st)
        end
    end.
Proof.
  intros Hu He. unfold PublishEventMutation, Event_publish, send, is_published.
  run_monad. rewrite Hu, He. cbn [fields pk].
  destruct (published_at ev) as [t|] eqn:Hp.
  { rewrite bool_decide_eq_true_2 by done. done. }
  rewrite bool_decide_eq_false_2 by (intros H; by apply H).
  change (guardians_with_children (set_events st _))
    with (guardians_with_children st).
  destruct (dispatch _ _ _) as [[]|[]]; try done.
  by case_decide.
Qed.

(** A publish request for an event that is already published raises and
    leaves the store as it was, whoever asks and whatever the dispatch
    would do. *)
Lemma publish_published dispatch user now id ev t st :
  events st !! id = Some ev →
  published_at ev = Some t →
  PublishEventMutation dispatch user now id st =
    (Raise (if is_staff user then ALREADY_PUBLISHED else PermissionDenied), st).
Proof.
  intros He Hp. destruct (is_staff user) eqn:Hu.
  - rewrite (publish_found dispatch user now id ev st) by done. by rewrite Hp.
  - unfold PublishEventMutation. run_monad. by rewrite Hu.
Qed.

Lemma publish_each_published id ev t st calls :
  events st !! id = Some ev →
  published_at ev = Some t →
  ∃ results,
    publish_each id calls st = (results, st) ∧
    Forall2 (fun call r =>
               ∃ e, r = Raise e ∧
                    (is_staff (call_user call) = true → e = ALREADY_PUBLISHED))
            calls results.
Proof.
  intros He Hp. induction calls as [|call calls (results & Hrun & Hall)].
  { exists []. split; [done|constructor]. }
  simpl. rewrite (publish_published _ _ _ id ev t st) by done.
  rewrite Hrun. eexists. split; [reflexivity|].
  constructor; [|done]. eexists. split; [reflexivity|].
  by intros ->.
Qed.

(** C4, as amended. A Publish request by a staff member for an
    unpublished event, whose notification dispatch goes through, returns
    the event with
    [published_at] set to the current time and stores it so. Every Publish
    request for the same event after that raises — "Event is already
    published" whenever it comes from a staff member — and the store,
    with it [published_at], stays as the first request left it. *)
Theorem publish_once dispatch user now id ev st calls :
  is_staff user = true →
  events st !! id = Some ev →
  published_at ev = None →
  dispatch (Instance id (set_published_at ev (Some now))) EVENT_PUBLISHED
       (guardians_with_children st) = Ok tt →
  ∃ event st1,
    PublishEventMutation dispatch user now id st = (Ok (Instance id event), st1) ∧
    events st1 !! id = Some event ∧
    published_at event = Some now ∧
    ∃ results,
      publish_each id calls st1 = (results, st1) ∧
      Forall2 (fun call r =>
                 ∃ e, r = Raise e ∧
                      (is_staff (call_user call) = true → e = ALREADY_PUBLISHED))
              calls results.
Proof.
  intros Hu He Hp Hsend.
  rewrite (publish_found dispatch user now id ev st) by done.
  rewrite Hp, Hsend.
  eexists _, _. split; [reflexivity|].
  assert (Hnew : events (set_events st (<[id := set_published_at ev (Some now)]> (events st)))
                   !! id = Some (set_published_at ev (Some now))).
  { simpl. apply lookup_insert_eq. }
  split; [exact Hnew|]. split; [done|].
  by eapply publish_each_published.
Qed.

Lemma publish_once_witness :
  ∃ event st1,
    PublishEventMutation send_ok staff1 70 1 demo = (Ok (Instance 1%nat event), st1) ∧
    events st1 !! 1%nat = Some event ∧
    published_at event = Some 70 ∧
    ∃ results,
      publish_each 1 demo_calls st1 = (results, st1) ∧
      Forall2 (fun call r =>
                 ∃ e, r = Raise e ∧
                      (is_staff (call_user call) = true → e = ALREADY_PUBLISHED))
              demo_calls results.
Proof.
  apply (publish_once send_ok staff1 70 1 (draft 2) demo demo_calls).
  - reflexivity.
  - reflexivity.
  - reflexivity.
  - reflexivity.
Defined.

(** C5, as amended. When the notification dispatch of a Publish request
    for an unpublished event raises, the request raises too and the
    enclosing transaction is rolled back: the store is the one from before
    the request, in which the event is still unpublished. The exception is
    the one the dispatch raised, except that [Event.DoesNotExist] is
    rewrapped by the handler around it. *)
Theorem dispatch_failure_rolls_back dispatch user now id ev st e :
  is_staff user = true →
  events st !! id = Some ev →
  published_at ev = None →
  dispatch (Instance id (set_published_at ev (Some now))) EVENT_PUBLISHED
           (guardians_with_children st) = Raise e →
  ∃ e', PublishEventMutation dispatch user now id st = (Raise e', st) ∧
        (e ≠ DoesNotExist "Event" → e' = e) ∧
        events (PublishEventMutation dispatch user now id st).2 !! id = Some ev.
Proof.
  intros Hu He Hp Hsend.
  rewrite (publish_found dispatch user now id ev st) by done.
  rewrite Hp, Hsend.
  destruct e as [model| | | |]; try (eexists; by repeat split).
  case_decide as Hm; eexists; repeat split; try done.
  intros Hne. by subst.
Qed.

Lemma dispatch_failure_rolls_back_witness :
  ∃ e', PublishEventMutation send_fails staff1 70 1 demo = (Raise e', demo) ∧
        (NotificationError "mail server unreachable" ≠ DoesNotExist "Event" →
         e' = NotificationError "mail server unreachable") ∧
        events (PublishEventMutation send_fails staff1 70 1 demo).2 !! 1%nat
          = Some (draft 2).
Proof.
  apply (dispatch_failure_rolls_back send_fails staff1 70 1 (draft 2) demo).
  - reflexivity.
  - reflexivity.
  - reflexivity.
  - reflexivity.
Defined.

(** C5 as stated fails: the dispatch runs inside the transaction, so when
    it raises, [published_at] is not left set. *)
Lemma dispatch_failure_keeps_no_publish :
  ¬ (∀ dispatch user now id ev st e,
       is_staff user = true →
       events st !! id = Some ev →
       published_at ev = None →
       dispatch (Instance id (set_published_at ev (Some now))) EVENT_PUBLISHED
                (guardians_with_children st) = Raise e →
       ∃ ev', events (PublishEventMutation dispatch user now id st).2 !! id = Some ev' ∧
              published_at ev' = Some now).
Proof.
  intros H.
  destruct (H send_fails staff1 70 1%nat (draft 2) demo
              (NotificationError "mail server unreachable"))
    as (ev' & Hev & Hp); try reflexivity.
  vm_compute in Hev. injection Hev as <-. discriminate.
Qed.

(** ** Occurrence filters *)

#[global] Instance time_le_trans : Transitive time_le.
Proof. unfold time_le. intros a b c. lia. Qed.

#[global] Instance time_le_total : Total time_le.
Proof. unfold time_le. intros a b. lia. Qed.

#[global] Instance Instance_pair_inj {A} :
  Inj (=) (=) (fun kv : nat * A => Instance kv.1 kv.2).
Proof. intros [k1 v1] [k2 v2] [= -> ->]. done. Qed.

Lemma StronglySorted_filter {A} (R : relation A) (P : A → Prop)
    `{!∀ x, Decision (P x)} (l : list A) :
  StronglySorted R l → StronglySorted R (filter P l).
Proof.
  induction 1 as [|x l Hl IH Hx]; [constructor|].
  rewrite filter_cons. case_decide; [|done].
  constructor; [done|].
  apply Forall_forall. intros y Hy. apply list_elem_of_filter in Hy as [_ Hy].
  by eapply Forall_forall in Hx.
Qed.

Lemma elem_of_Occurrence_objects_all st o :
  o ∈ Occurrence_objects_all st ↔ occurrences st !! pk o = Some (fields o).
Proof.
  unfold Occurrence_objects_all. rewrite list_elem_of_fmap. split.
  - intros ([k v] & -> & Hkv). by apply elem_of_map_to_list in Hkv.
  - intros Ho. exists (pk o, fields o). split; [by destruct o|].
    by apply elem_of_map_to_list.
Qed.

Lemma query_occurrences_run unicode st user now args :
  is_authenticated user = true →
  Query_occurrences unicode user now args st =
    (Ok (filter_queryset unicode now args (order_by_time (Occurrence_objects_all st))),
     st).
Proof.
  intros Hu. unfold Query_occurrences, OccurrenceNode_get_queryset.
  run_monad. by rewrite Hu.
Qed.

(** C8. The occurrences query with [upcoming=true], and no other filter,
    returns an ascending-by-time list without repetitions that holds
    exactly the stored occurrences whose time is at or after the current
    time. *)
Theorem upcoming_occurrences unicode st user now :
  is_authenticated user = true →
  ∃ qs, Query_occurrences unicode user now only_upcoming st = (Ok qs, st) ∧
        StronglySorted time_le qs ∧
        NoDup qs ∧
        ∀ o, o ∈ qs ↔ occurrences st !! pk o = Some (fields o) ∧
                      time (fields o) >= now.
Proof.
  intros Hu. rewrite query_occurrences_run by done.
  eexists. split; [reflexivity|].
  unfold filter_queryset, only_upcoming, apply_filter, filter_by_upcoming,
    order_by_time. simpl.
  split; [|split].
  - apply StronglySorted_filter, StronglySorted_merge_sort; apply _.
  - apply NoDup_filter. rewrite merge_sort_Permutation.
    unfold Occurrence_objects_all. apply (NoDup_fmap_2 _).
    apply NoDup_map_to_list.
  - intros o. rewrite list_elem_of_filter, merge_sort_Permutation.
    rewrite elem_of_Occurrence_objects_all. tauto.
Qed.

Lemma upcoming_occurrences_witness :
  ∃ qs, Query_occurrences ascii_greek guardian7 60 only_upcoming demo = (Ok qs, demo) ∧
        StronglySorted time_le qs ∧
        NoDup qs ∧
        ∀ o, o ∈ qs ↔ occurrences demo !! pk o = Some (fields o) ∧
                      time (fields o) >= 60.
Proof.
  apply (upcoming_occurrences ascii_greek demo guardian7 60).
  reflexivity.
Defined.

Example demo_upcoming :
  match (Query_occurrences ascii_greek guardian7 60 only_upcoming demo).1 with
  | Ok qs => pk <$> qs
  | Raise _ => []
  end = [10%nat; 11%nat].
Proof. reflexivity. Qed.

(** ** Lowering and stripping *)

Lemma lower_from_no_sigma unicode before s :
  CAPITAL_SIGMA ∉ s → lower_from unicode before s = s ≫= to_lower unicode.
Proof.
  revert before. induction s as [|c s IH]; intros before Hs; [done|].
  simpl. apply not_elem_of_cons in Hs as [Hc Hs].
  destruct (N.eqb_spec c CAPITAL_SIGMA) as [->|_]; [done|].
  by rewrite IH.
Qed.

Lemma same_letter_to_lower unicode a b :
  same_letter unicode a b → to_lower unicode a = to_lower unicode b.
Proof.
  intros [->|(_ & _ & [[Ha Hb]|[Hb Ha]])]; [done| |]; by rewrite Ha, Hb.
Qed.

Lemma same_letter_is_space unicode a b :
  same_letter unicode a b → is_space a = is_space b.
Proof. intros [->|(Ha & Hb & _)]; [done|]. by rewrite Ha, Hb. Qed.

Lemma str_lower_differ_only_in_case unicode v1 v2 :
  differ_only_in_case unicode v1 v2 →
  CAPITAL_SIGMA ∉ v1 → CAPITAL_SIGMA ∉ v2 →
  str_lower unicode v1 = str_lower unicode v2.
Proof.
  intros Hcase H1 H2. unfold str_lower.
  rewrite !lower_from_no_sigma by done.
  induction Hcase as [|a b v1 v2 Hab _ IH]; [done|].
  apply not_elem_of_cons in H1 as [_ H1]. apply not_elem_of_cons in H2 as [_ H2].
  rewrite !bind_cons. by rewrite (same_letter_to_lower unicode a b), IH.
Qed.

Lemma elem_of_lstrip c s : c ∈ lstrip s → c ∈ s.
Proof.
  induction s as [|d s IH]; simpl; [done|].
  destruct (is_space d); [|done]. intros Hc. right. by apply IH.
Qed.

Lemma elem_of_str_strip c s : c ∈ str_strip s → c ∈ s.
Proof.
  unfold str_strip. rewrite elem_of_reverse. intros Hc.
  apply elem_of_lstrip in Hc. rewrite elem_of_reverse in Hc.
  by apply elem_of_lstrip in Hc.
Qed.

Lemma lstrip_differ_only_in_case unicode v1 v2 :
  differ_only_in_case unicode v1 v2 →
  differ_only_in_case unicode (lstrip v1) (lstrip v2).
Proof.
  induction 1 as [|a b v1 v2 Hab Hrest IH]; [constructor|].
  simpl. rewrite <- (same_letter_is_space unicode a b Hab).
  destruct (is_space a); [done|]. by constructor.
Qed.

Lemma reverse_differ_only_in_case unicode v1 v2 :
  differ_only_in_case unicode v1 v2 →
  differ_only_in_case unicode (reverse v1) (reverse v2).
Proof.
  induction 1 as [|a b v1 v2 Hab Hrest IH]; [constructor|].
  rewrite !reverse_cons. apply Forall2_app; [done|].
  constructor; [done|constructor].
Qed.

Lemma str_strip_differ_only_in_case unicode v1 v2 :
  differ_only_in_case unicode v1 v2 →
  differ_only_in_case unicode (str_strip v1) (str_strip v2).
Proof.
  intros H. unfold str_strip.
  by apply reverse_differ_only_in_case, lstrip_differ_only_in_case,
    reverse_differ_only_in_case, lstrip_differ_only_in_case.
Qed.

(** C9, as amended. Two values of the occurrence-language filter that
    differ only in letter case, position by position and with each capital
    lowering to the one code point it is paired with, and that hold no
    Greek capital sigma, select the same occurrences: from any query set,
    and in the occurrences query along with any other filters. *)
Theorem language_filter_ignores_case unicode v1 v2 :
  differ_only_in_case unicode v1 v2 →
  CAPITAL_SIGMA ∉ v1 → CAPITAL_SIGMA ∉ v2 →
  (∀ qs, filter_by_occurrence_language unicode qs v1
         = filter_by_occurrence_language unicode qs v2) ∧
  (∀ user now args st,
     Query_occurrences unicode user now (set_language args v1) st =
     Query_occurrences unicode user now (set_language args v2) st).
Proof.
  intros Hcase H1 H2.
  assert (Hf : ∀ w1 w2, differ_only_in_case unicode w1 w2 →
                 CAPITAL_SIGMA ∉ w1 → CAPITAL_SIGMA ∉ w2 →
                 ∀ qs, filter_by_occurrence_language unicode qs w1
                       = filter_by_occurrence_language unicode qs w2).
  { intros w1 w2 Hw Hw1 Hw2 qs. unfold filter_by_occurrence_language.
    by rewrite (str_lower_differ_only_in_case unicode w1 w2). }
  split; [by apply Hf|].
  intros user now args st.
  unfold Query_occurrences, filter_queryset, set_language. simpl.
  run_monad. destruct (OccurrenceNode_get_queryset _ _ _) as [[qs|e] st']; [|done].
  f_equal. f_equal. unfold clean_char_value.
  pose proof (str_strip_differ_only_in_case unicode v1 v2 Hcase) as Hstrip.
  assert (Hs1 : CAPITAL_SIGMA ∉ str_strip v1)
    by (intros Hin; by apply elem_of_str_strip in Hin).
  assert (Hs2 : CAPITAL_SIGMA ∉ str_strip v2)
    by (intros Hin; by apply elem_of_str_strip in Hin).
  destruct Hstrip as [|a b w1 w2 Hab Hrest]; [done|].
  simpl. apply Hf; [by constructor|done|done].
Qed.

Lemma language_filter_ignores_case_witness :
  (∀ qs, filter_by_occurrence_language ascii_greek qs (text "FI")
         = filter_by_occurrence_language ascii_greek qs (text "fi")) ∧
  (∀ user now args st,
     Query_occurrences ascii_greek user now (set_language args (text "FI")) st =
     Query_occurrences ascii_greek user now (set_language args (text "fi")) st).
Proof.
  apply (language_filter_ignores_case ascii_greek (text "FI") (text "fi")).
  - constructor; [right; split; [reflexivity|split; [reflexivity|left; by split]]|].
    constructor; [right; split; [reflexivity|split; [reflexivity|left; by split]]|].
    constructor.
  - apply (bool_decide_unpack _). reflexivity.
  - apply (bool_decide_unpack _). reflexivity.
Defined.

(** C9 as stated fails. With the rows that the Unicode database has for
    alpha and sigma, "ΑΣ" (913, 931) and "ασ" (945, 963) differ only in
    letter case, yet [str.lower] gives "ας" (945, 962) for the first, the
    sigma being final, and "ασ" for the second: an occurrence stored with
    "ασ" is selected by the second value and not by the first. *)
Lemma language_filter_final_sigma :
  ¬ ∃ unicode,
      greek_rows unicode ∧
      ∀ qs v1 v2,
        differ_only_in_case unicode v1 v2 →
        filter_by_occurrence_language unicode qs v1
        = filter_by_occurrence_language unicode qs v2.
Proof.
  intros (unicode & (HA & Ha & HS & Hs & Hcased & Hign) & Hclaim).
  specialize (Hclaim [stored_greek] [913; CAPITAL_SIGMA]%N [945; SMALL_SIGMA]%N).
  unfold filter_by_occurrence_language, str_lower in Hclaim.
  simpl in Hclaim. unfold final_sigma in Hclaim. simpl in Hclaim.
  rewrite HA, Ha, Hs, Hign in Hclaim. rewrite Hcased in Hclaim. simpl in Hclaim.
  rewrite filter_cons_False, filter_cons_True in Hclaim; [| |].
  - assert (Hnil : [] = [stored_greek]).
    { apply Hclaim.
      constructor; [right; split; [reflexivity|split; [reflexivity|left; by split]]|].
      constructor; [right; split; [reflexivity|split; [reflexivity|left; by split]]|].
      constructor. }
    discriminate.
  - reflexivity.
  - simpl. discriminate.
Qed.

Example demo_language_filter :
  match (Query_occurrences ascii_greek guardian7 60
           (set_language only_upcoming (text " FI ")) demo).1 with
  | Ok qs => pk <$> qs
  | Raise _ => []
  end = [10%nat].
Proof. reflexivity. Qed.

Example demo_final_sigma :
  str_lower ascii_greek [913; CAPITAL_SIGMA]%N = [945; SMALL_FINAL_SIGMA]%N ∧
  str_lower ascii_greek [945; SMALL_SIGMA]%N = [945; SMALL_SIGMA]%N.
Proof. split; reflexivity. Qed.

(** * Further properties of the mutations and the query *)

(** ** Refused and failing requests *)

(** X1. A request from a user who is not authenticated raises
    [PermissionDenied] and leaves the store as it was, for Enrol, Unenrol
    and the occurrences query alike. *)
Theorem unauthenticated_refused unicode st user now oid cid args :
  is_authenticated user = false →
  EnrolOccurrenceMutation user now oid cid st = (Raise PermissionDenied, st) ∧
  UnenrolOccurrenceMutation user oid cid st = (Raise PermissionDenied, st) ∧
  Query_occurrences unicode user now args st = (Raise PermissionDenied, st).
Proof.
  intros Hu.
  unfold EnrolOccurrenceMutation, UnenrolOccurrenceMutation, Query_occurrences,
    OccurrenceNode_get_queryset.
  run_monad. rewrite Hu. done.
Qed.

Lemma unauthenticated_refused_witness :
  EnrolOccurrenceMutation anonymous 60 10 1 demo = (Raise PermissionDenied, demo) ∧
  UnenrolOccurrenceMutation anonymous 10 1 demo = (Raise PermissionDenied, demo) ∧
  Query_occurrences ascii_greek anonymous 60 only_upcoming demo
  = (Raise PermissionDenied, demo).
Proof.
  apply (unauthenticated_refused ascii_greek demo anonymous 60 10 1 only_upcoming).
  reflexivity.
Defined.

(** X2. Enrol looks the occurrence up first: when it does not exist the
    request raises "Occurrence matching query does not exist.", whatever the
    child id is, and the store stays as it was. *)
Theorem enrol_unknown_occurrence st user now oid cid :
  is_authenticated user = true →
  occurrences st !! oid = None →
  EnrolOccurrenceMutation user now oid cid st = (Raise (NOT_FOUND "Occurrence"), st).
Proof.
  intros Hu Ho. unfold EnrolOccurrenceMutation. run_monad.
  rewrite Hu, Ho. done.
Qed.

Lemma enrol_unknown_occurrence_witness :
  EnrolOccurrenceMutation guardian7 60 13 99 demo = (Raise (NOT_FOUND "Occurrence"), demo).
Proof.
  apply (enrol_unknown_occurrence demo guardian7 60 13 99); reflexivity.
Defined.

(** X3. A child that does not exist and a child the acting user may not
    update are reported alike: Enrol (once the occurrence is found) and
    Unenrol raise "Child matching query does not exist." and leave the
    store as it was. *)
Theorem child_not_found_or_not_authorised st user now oid cid o :
  is_authenticated user = true →
  occurrences st !! oid = Some o →
  children st !! cid = None ∨ user_can_update st user cid = false →
  EnrolOccurrenceMutation user now oid cid st = (Raise (NOT_FOUND "Child"), st) ∧
  UnenrolOccurrenceMutation user oid cid st = (Raise (NOT_FOUND "Child"), st).
Proof.
  intros Hu Ho Hc.
  unfold EnrolOccurrenceMutation, UnenrolOccurrenceMutation,
    Child_objects_user_can_update_get.
  run_monad. rewrite Hu, Ho. simpl.
  destruct Hc as [Hc|Hg].
  - rewrite Hc. done.
  - rewrite Hg. destruct (children st !! cid); done.
Qed.

Lemma child_not_found_or_not_authorised_witness :
  EnrolOccurrenceMutation guardian8 60 10 1 demo = (Raise (NOT_FOUND "Child"), demo) ∧
  UnenrolOccurrenceMutation guardian8 10 1 demo = (Raise (NOT_FOUND "Child"), demo).
Proof.
  apply (child_not_found_or_not_authorised demo guardian8 60 10 1
           {| time := 100; event_id := 1; venue_id := 1; occurrence_language := text "fi" |}).
  - reflexivity.
  - reflexivity.
  - right. reflexivity.
Defined.

(** ** What a successful Enrol changes *)

Lemma enrolment_count_enrol_store st now cid oid oid' :
  enrolment_count (enrol_store st now cid oid) oid' =
  (enrolment_count st oid' + (if decide (oid = oid') then 1 else 0))%nat.
Proof.
  unfold enrolment_count, occurrence_enrolments. simpl.
  rewrite filter_app, length_app. f_equal.
  rewrite filter_cons. simpl. by case_decide.
Qed.

(** X4. A successful Enrol appends exactly one row, which links the child
    to the occurrence; the rows that were there, the key sequence apart, and
    the event, occurrence, child and guardian tables are as before, the
    count of the occurrence grows by one and that of every other occurrence
    is unchanged. *)
Theorem enrol_appends_one_row st user now oid cid e st' :
  EnrolOccurrenceMutation user now oid cid st = (Ok e, st') →
  association e = (cid, oid) ∧
  enrolments st' = enrolments st ++ [e] ∧
  events st' = events st ∧ occurrences st' = occurrences st ∧
  children st' = children st ∧ guardians st' = guardians st ∧
  enrolment_count st' oid = S (enrolment_count st oid) ∧
  ∀ oid', oid' ≠ oid → enrolment_count st' oid' = enrolment_count st oid'.
Proof.
  intros Hrun.
  destruct (enrol_cases st user now oid cid)
    as [[e' He]|(o & ev & _ & _ & _ & _ & _ & Hok)].
  { rewrite He in Hrun. discriminate. }
  rewrite Hok in Hrun. injection Hrun as <- <-.
  repeat split.
  - rewrite enrolment_count_enrol_store, decide_True by done. lia.
  - intros oid' Hne. rewrite enrolment_count_enrol_store, decide_False by done. lia.
Qed.

Lemma enrol_appends_one_row_witness :
  association (new_enrolment demo 60 1 10) = (1%nat, 10%nat) ∧
  enrolments (enrol_store demo 60 1 10) = enrolments demo ++ [new_enrolment demo 60 1 10] ∧
  events (enrol_store demo 60 1 10) = events demo ∧
  occurrences (enrol_store demo 60 1 10) = occurrences demo ∧
  children (enrol_store demo 60 1 10) = children demo ∧
  guardians (enrol_store demo 60 1 10) = guardians demo ∧
  enrolment_count (enrol_store demo 60 1 10) 10 = S (enrolment_count demo 10) ∧
  ∀ oid', oid' ≠ 10%nat →
          enrolment_count (enrol_store demo 60 1 10) oid' = enrolment_count demo oid'.
Proof.
  apply (enrol_appends_one_row demo guardian7 60 10 1).
  reflexivity.
Defined.

(** Everything a successful Enrol has checked. *)
Lemma enrol_ok_inv st user now oid cid e st' :
  EnrolOccurrenceMutation user now oid cid st = (Ok e, st') →
  ∃ o c ev,
    is_authenticated user = true ∧
    occurrences st !! oid = Some o ∧ children st !! cid = Some c ∧
    user_can_update st user cid = true ∧ events st !! event_id o = Some ev ∧
    ¬ already_joined st cid (event_id o) ∧
    Z.of_nat (enrolment_count st oid) < capacity_per_occurrence ev ∧
    now ≤ time o ∧
    e = new_enrolment st now cid oid ∧ st' = enrol_store st now cid oid.
Proof.
  intros Hrun.
  destruct (is_authenticated user) eqn:Hu; cycle 1.
  { unfold EnrolOccurrenceMutation in Hrun. run_monad. by rewrite Hu in Hrun. }
  destruct (occurrences st !! oid) as [o|] eqn:Ho; cycle 1.
  { unfold EnrolOccurrenceMutation in Hrun. run_monad.
    by rewrite Hu, Ho in Hrun. }
  destruct (children st !! cid) as [c|] eqn:Hc; cycle 1.
  { unfold EnrolOccurrenceMutation, Child_objects_user_can_update_get in Hrun.
    run_monad. rewrite Hu, Ho in Hrun. simpl in Hrun. by rewrite Hc in Hrun. }
  destruct (user_can_update st user cid) eqn:Hg; cycle 1.
  { unfold EnrolOccurrenceMutation, Child_objects_user_can_update_get in Hrun.
    run_monad. rewrite Hu, Ho in Hrun. simpl in Hrun. by rewrite Hc, Hg in Hrun. }
  destruct (events st !! event_id o) as [ev|] eqn:He; cycle 1.
  { unfold EnrolOccurrenceMutation, Child_objects_user_can_update_get,
      validate_enrolment, occurrence_event in Hrun.
    run_monad. rewrite Hu, Ho in Hrun. simpl in Hrun. rewrite Hc, Hg in Hrun.
    simpl in Hrun. by rewrite He in Hrun. }
  rewrite (enrol_found st user now oid cid o c ev) in Hrun by done.
  repeat case_decide; try discriminate.
  injection Hrun as <- <-. exists o, c, ev.
  repeat split; try done; try lia.
  by apply not_already_joined.
Qed.

(** ** Capacity *)

Lemma enrolment_count_unenrol_store st cid oid oid' :
  enrolment_count st oid' =
  (enrolment_count (unenrol_store st cid oid) oid' +
   (if decide (oid = oid') then length (filter (links cid oid) (enrolments st)) else 0))%nat.
Proof.
  unfold enrolment_count, occurrence_enrolments. simpl.
  induction (enrolments st) as [|r rows IH]; [by case_decide|].
  rewrite !(filter_cons _ r). unfold links in *.
  destruct (decide (enrolment_occurrence r = oid ∧ enrolment_child r = cid))
    as [[Ho Hc]|Hn].
  - rewrite (decide_False (P := ¬ _)) by tauto.
    destruct (decide (enrolment_occurrence r = oid')) as [Ho'|Ho'].
    + rewrite decide_True in IH |- * by congruence. simpl. rewrite IH. lia.
    + rewrite decide_False in IH |- * by congruence. done.
  - rewrite (decide_True (P := ¬ _)) by done.
    destruct (decide (enrolment_occurrence r = oid')) as [Ho'|Ho'].
    + rewrite filter_cons_True by done. simpl. rewrite IH. lia.
    + rewrite filter_cons_False by done. done.
Qed.

Lemma handle_keeps_capacity st rq :
  capacity_respected st → capacity_respected (handle st rq).
Proof.
  intros Hcap. destruct rq as [user now oid cid|user oid cid]; simpl.
  - destruct (enrol_cases st user now oid cid)
      as [[e ->]|(o & ev & Ho & He & _ & Hlt & _ & ->)]; simpl; [done|].
    intros oid' o' ev' Ho' He'. simpl in Ho', He'.
    rewrite enrolment_count_enrol_store.
    case_decide as Heq.
    + subst oid'. rewrite Ho in Ho'. injection Ho' as <-.
      rewrite He in He'. injection He' as <-. lia.
    + specialize (Hcap oid' o' ev' Ho' He'). lia.
  - destruct (unenrol_cases st user oid cid) as [[e ->]|(r & _ & ->)]; simpl; [done|].
    intros oid' o' ev' Ho' He'. simpl in Ho', He'.
    specialize (Hcap oid' o' ev' Ho' He').
    rewrite (enrolment_count_unenrol_store st cid oid oid') in Hcap. lia.
Qed.

Lemma no_enrolments_capacity_respected st :
  enrolments st = [] →
  map_Forall (fun _ ev => 0 ≤ capacity_per_occurrence ev) (events st) →
  capacity_respected st.
Proof.
  intros Hnil Hpos oid o ev _ He.
  unfold enrolment_count, occurrence_enrolments. rewrite Hnil. simpl.
  by apply (Hpos _ _ He).
Qed.

(** X5. No overbooking by requests served one after the other: from a
    store in which no occurrence holds more enrolments than its event's
    capacity, every store reached by Enrol and Unenrol requests is again
    such a store. *)
Theorem capacity_respected_kept st0 rqs :
  capacity_respected st0 → capacity_respected (run_requests st0 rqs).
Proof.
  revert st0. unfold run_requests.
  induction rqs as [|rq rqs IH]; intros st0 Hcap; simpl; [done|].
  apply IH. by apply handle_keeps_capacity.
Qed.

Lemma capacity_respected_kept_witness :
  capacity_respected (run_requests demo demo_requests).
Proof.
  apply (capacity_respected_kept demo demo_requests).
  apply no_enrolments_capacity_respected; [reflexivity|].
  apply map_Forall_insert_2; [simpl; lia|].
  apply map_Forall_singleton. simpl. lia.
Defined.

(** X6. When the event's capacity is zero or negative, no child can be
    enrolled in any of its occurrences: a request that passes the look-ups
    and the duplicate check raises "Maximum enrolments created", even for
    an occurrence without enrolments and whatever its time. *)
Theorem enrol_without_capacity st user now oid cid o c ev :
  is_authenticated user = true →
  occurrences st !! oid = Some o →
  children st !! cid = Some c →
  user_can_update st user cid = true →
  events st !! event_id o = Some ev →
  ¬ already_joined st cid (event_id o) →
  capacity_per_occurrence ev ≤ 0 →
  EnrolOccurrenceMutation user now oid cid st = (Raise MAXIMUM_ENROLMENTS, st).
Proof.
  intros Hu Ho Hc Hg He Hj Hcap.
  rewrite (enrol_found st user now oid cid o c ev) by done.
  rewrite decide_False by (by rewrite joined_occurrences_nonempty).
  rewrite decide_True by lia. done.
Qed.

Lemma enrol_without_capacity_witness :
  EnrolOccurrenceMutation guardian7 60 10 1 (with_capacity demo 1 0)
  = (Raise MAXIMUM_ENROLMENTS, with_capacity demo 1 0).
Proof.
  apply (enrol_without_capacity (with_capacity demo 1 0) guardian7 60 10 1
           {| time := 100; event_id := 1; venue_id := 1; occurrence_language := text "fi" |}
           {| first_name := "A" |} (draft 0)).
  - reflexivity.
  - reflexivity.
  - reflexivity.
  - reflexivity.
  - reflexivity.
  - apply not_already_joined. reflexivity.
  - simpl. lia.
Defined.

(** X7. Once a child is enrolled, a further Enrol request for the child
    and any occurrence of the same event, the same one included, raises
    "Child already joined this event" and changes nothing, whoever of the
    child's guardians asks and whenever. *)
Theorem enrol_again_conflicts st user now oid cid e st' o user2 now2 oid2 o2 :
  EnrolOccurrenceMutation user now oid cid st = (Ok e, st') →
  occurrences st !! oid = Some o →
  occurrences st !! oid2 = Some o2 →
  event_id o2 = event_id o →
  is_authenticated user2 = true →
  user_can_update st user2 cid = true →
  EnrolOccurrenceMutation user2 now2 oid2 cid st' = (Raise CHILD_ALREADY_JOINED, st').
Proof.
  intros Hrun Ho Ho2 Hev Hu2 Hg2.
  apply enrol_ok_inv in Hrun
    as (o' & c & ev & _ & Ho' & Hc & _ & He & _ & _ & _ & -> & ->).
  rewrite Ho in Ho'. injection Ho' as <-.
  rewrite (enrol_found _ user2 now2 oid2 cid o2 c ev); try done.
  - rewrite (joined_enrol_store st now cid oid o) by done.
    rewrite decide_True; [done|].
    rewrite (decide_True (P := _ ∧ _)) by done.
    intros Hnil. by apply app_eq_nil in Hnil as [_ ?].
  - simpl. by rewrite Hev.
Qed.

Lemma enrol_again_conflicts_witness :
  EnrolOccurrenceMutation guardian7 70 11 1 (enrol_store demo 60 1 10)
  = (Raise CHILD_ALREADY_JOINED, enrol_store demo 60 1 10).
Proof.
  apply (enrol_again_conflicts demo guardian7 60 10 1 (new_enrolment demo 60 1 10)
           (enrol_store demo 60 1 10)
           {| time := 100; event_id := 1; venue_id := 1; occurrence_language := text "fi" |}
           guardian7 70 11
           {| time := 200; event_id := 1; venue_id := 1; occurrence_language := text "sv" |}).
  - reflexivity.
  - reflexivity.
  - reflexivity.
  - reflexivity.
  - reflexivity.
  - reflexivity.
Defined.

Lemma already_joined_enrol_store st now cid oid o child event :
  occurrences st !! oid = Some o →
  child ≠ cid →
  already_joined (enrol_store st now cid oid) child event →
  already_joined st child event.
Proof.
  intros Ho Hne. rewrite <- !joined_occurrences_nonempty.
  rewrite (joined_enrol_store st now cid oid o) by done.
  rewrite decide_False by (intros [? _]; congruence).
  by rewrite app_nil_r.
Qed.

(** X8. Filling an occurrence: when distinct children, none of them in
    the event yet, are enrolled one after the other in an occurrence that
    is not in the past, the request with index [i] succeeds exactly when
    the count before the first request plus [i] is below the capacity, and
    every other one raises "Maximum enrolments created". *)
Theorem enrol_each_fills_capacity user now oid o ev cids st :
  is_authenticated user = true →
  occurrences st !! oid = Some o →
  events st !! event_id o = Some ev →
  now ≤ time o →
  NoDup cids →
  (∀ c, c ∈ cids → is_Some (children st !! c) ∧ user_can_update st user c = true ∧
                   ¬ already_joined st c (event_id o)) →
  ∃ results st',
    enrol_each user now oid cids st = (results, st') ∧
    length results = length cids ∧
    ∀ i r, results !! i = Some r →
           if decide (Z.of_nat (enrolment_count st oid + i) < capacity_per_occurrence ev)
           then is_Ok r else r = Raise MAXIMUM_ENROLMENTS.
Proof.
  intros Hu Ho He Ht Hnd. revert st Ho He.
  induction Hnd as [|c cs Hc Hnd IH]; intros st Ho He Hall.
  { exists [], st. repeat split. intros i r Hi. done. }
  destruct (Hall c) as ([ch Hch] & Hg & Hj); [left|].
  simpl. rewrite (enrol_found st user now oid c o ch ev) by done.
  rewrite decide_False by (by rewrite joined_occurrences_nonempty).
  rewrite (decide_False (P := time o < now)) by lia.
  destruct (decide (Z.of_nat (enrolment_count st oid) >= capacity_per_occurrence ev))
    as [Hfull|Hfree].
  - destruct (IH st Ho He) as (results & st' & Hrun & Hlen & Hres).
    { intros c' Hc'. apply Hall. by right. }
    rewrite Hrun. eexists _, _. split; [reflexivity|]. split; [simpl; lia|].
    intros [|i] r Hi; simpl in Hi.
    + injection Hi as <-. rewrite decide_False by lia. done.
    + specialize (Hres i r Hi). rewrite decide_False in Hres by lia.
      rewrite decide_False by lia. done.
  - destruct (IH (enrol_store st now c oid)) as (results & st' & Hrun & Hlen & Hres);
      [done|done| |].
    { intros c' Hc'. destruct (Hall c') as (Hch' & Hg' & Hj'); [by right|].
      repeat split; [done|done|].
      intros Hj2. apply Hj'.
      apply (already_joined_enrol_store st now c oid o); [done| |done].
      intros ->. done. }
    rewrite Hrun. eexists _, _. split; [reflexivity|]. split; [simpl; lia|].
    intros [|i] r Hi; simpl in Hi.
    + injection Hi as <-. rewrite decide_True by lia. exact I.
    + specialize (Hres i r Hi).
      rewrite enrolment_count_enrol_store in Hres.
      rewrite (decide_True (P := oid = oid)) in Hres by done.
      replace (enrolment_count st oid + S i)%nat
        with (enrolment_count st oid + 1 + i)%nat by lia.
      done.
Qed.

Lemma enrol_each_fills_capacity_witness :
  ∃ results st',
    enrol_each guardian7 60 10 [1; 2; 3]%nat demo = (results, st') ∧
    length results = length [1; 2; 3]%nat ∧
    ∀ i r, results !! i = Some r →
           if decide (Z.of_nat (enrolment_count demo 10 + i)
                      < capacity_per_occurrence (draft 2))
           then is_Ok r else r = Raise MAXIMUM_ENROLMENTS.
Proof.
  apply (enrol_each_fills_capacity guardian7 60 10
           {| time := 100; event_id := 1; venue_id := 1; occurrence_language := text "fi" |}
           (draft 2) [1; 2; 3]%nat demo).
  - reflexivity.
  - reflexivity.
  - reflexivity.
  - simpl. lia.
  - apply (bool_decide_unpack _). reflexivity.
  - intros c Hc.
    repeat (apply elem_of_cons in Hc as [->|Hc];
            [split; [by eexists|split; [reflexivity|apply not_already_joined; reflexivity]]|]).
    by apply elem_of_nil in Hc.
Defined.

Example demo_fill :
  (enrol_each guardian7 60 10 [1; 2; 3]%nat demo).1
  = [Ok (new_enrolment demo 60 1 10);
     Ok (new_enrolment (enrol_store demo 60 1 10) 60 2 10);
     Raise MAXIMUM_ENROLMENTS].
Proof. reflexivity. Qed.

(** ** Unenrolment: failures and what it frees *)

(** Everything a successful Unenrol has found. *)
Lemma unenrol_ok_inv st user oid cid st' :
  UnenrolOccurrenceMutation user oid cid st = (Ok tt, st') →
  ∃ c o r,
    is_authenticated user = true ∧ children st !! cid = Some c ∧
    user_can_update st user cid = true ∧ occurrences st !! oid = Some o ∧
    filter (links cid oid) (enrolments st) = [r] ∧
    st' = unenrol_store st cid oid.
Proof.
  intros Hrun.
  destruct (is_authenticated user) eqn:Hu; cycle 1.
  { unfold UnenrolOccurrenceMutation in Hrun. run_monad. by rewrite Hu in Hrun. }
  destruct (children st !! cid) as [c|] eqn:Hc; cycle 1.
  { unfold UnenrolOccurrenceMutation, Child_objects_user_can_update_get in Hrun.
    run_monad. by rewrite Hu, Hc in Hrun. }
  destruct (user_can_update st user cid) eqn:Hg; cycle 1.
  { unfold UnenrolOccurrenceMutation, Child_objects_user_can_update_get in Hrun.
    run_monad. by rewrite Hu, Hc, Hg in Hrun. }
  destruct (occurrences st !! oid) as [o|] eqn:Ho; cycle 1.
  { unfold UnenrolOccurrenceMutation, Child_objects_user_can_update_get in Hrun.
    run_monad. rewrite Hu, Hc, Hg in Hrun. cbn [pk] in Hrun.
    rewrite child_occurrences_with_pk, Ho in Hrun. done. }
  rewrite (unenrol_found st user oid cid c o) in Hrun by done.
  destruct (filter (links cid oid) (enrolments st)) as [|r [|r' rows]] eqn:Hrows;
    try discriminate.
  injection Hrun as <-. by exists c, o, r.
Qed.

Lemma not_enrolled_no_links st cid oid :
  ¬ enrolled st cid oid → filter (links cid oid) (enrolments st) = [].
Proof.
  intros Hn.
  destruct (filter (links cid oid) (enrolments st)) as [|r rows] eqn:Hrows; [done|].
  exfalso. apply Hn.
  assert (Hr : r ∈ filter (links cid oid) (enrolments st)) by (rewrite Hrows; left).
  apply list_elem_of_filter in Hr as [[Ho Hc] Hr]. by exists r.
Qed.

(** X9. Unenrol looks the occurrence up among the child's own enrolments:
    for a child that is not enrolled in the occurrence the request raises
    "Occurrence matching query does not exist." and changes nothing,
    whether or not an occurrence with that key is stored. *)
Theorem unenrol_not_enrolled st user oid cid c :
  is_authenticated user = true →
  children st !! cid = Some c →
  user_can_update st user cid = true →
  ¬ enrolled st cid oid →
  UnenrolOccurrenceMutation user oid cid st = (Raise (NOT_FOUND "Occurrence"), st).
Proof.
  intros Hu Hc Hg Hn.
  destruct (occurrences st !! oid) as [o|] eqn:Ho.
  - rewrite (unenrol_found st user oid cid c o) by done.
    by rewrite not_enrolled_no_links.
  - unfold UnenrolOccurrenceMutation, Child_objects_user_can_update_get.
    run_monad. rewrite Hu, Hc, Hg. cbn [pk].
    rewrite child_occurrences_with_pk, Ho. done.
Qed.

Lemma unenrol_not_enrolled_witness :
  UnenrolOccurrenceMutation guardian7 11 1 demo_enrolled
  = (Raise (NOT_FOUND "Occurrence"), demo_enrolled).
Proof.
  apply (unenrol_not_enrolled demo_enrolled guardian7 11 1 {| first_name := "A" |}).
  - reflexivity.
  - reflexivity.
  - reflexivity.
  - intros (r & Hr & Hc & Ho).
    repeat (apply elem_of_cons in Hr as [->|Hr]; [discriminate|]).
    by apply elem_of_nil in Hr.
Defined.

Lemma no_links_after_unenrol st cid oid :
  filter (links cid oid) (enrolments (unenrol_store st cid oid)) = [].
Proof.
  simpl. induction (enrolments st) as [|r rows IH]; [done|].
  rewrite filter_cons. case_decide as Hn; [|done].
  by rewrite filter_cons_False.
Qed.

(** X10. Unenrol is not repeatable: after a successful Unenrol the same
    request raises "Occurrence matching query does not exist." and changes
    nothing. *)
Theorem unenrol_twice st user oid cid st' :
  UnenrolOccurrenceMutation user oid cid st = (Ok tt, st') →
  UnenrolOccurrenceMutation user oid cid st' = (Raise (NOT_FOUND "Occurrence"), st').
Proof.
  intros Hrun.
  apply unenrol_ok_inv in Hrun as (c & o & r & Hu & Hc & Hg & Ho & _ & ->).
  rewrite (unenrol_found _ user oid cid c o) by done.
  by rewrite no_links_after_unenrol.
Qed.

Lemma unenrol_twice_witness :
  UnenrolOccurrenceMutation guardian7 10 1 (unenrol_store demo_enrolled 1 10)
  = (Raise (NOT_FOUND "Occurrence"), unenrol_store demo_enrolled 1 10).
Proof.
  apply (unenrol_twice demo_enrolled guardian7 10 1).
  reflexivity.
Defined.

Lemma already_joined_unenrol_store st cid oid child event :
  already_joined (unenrol_store st cid oid) child event →
  already_joined st child event.
Proof.
  rewrite <- !joined_occurrences_nonempty. intros Hne Hnil.
  pose proof (joined_unenrol_store st cid oid child event) as Hlen.
  rewrite Hnil in Hlen. simpl in Hlen.
  destruct (joined_occurrences (unenrol_store st cid oid) child event); [done|].
  simpl in Hlen. lia.
Qed.

(** X11. The capacity check counts the rows that are there: after a
    successful Unenrol from an occurrence that held no more enrolments than
    the capacity, a child that is not in the event yet can be enrolled in
    that occurrence, as long as its time has not passed. *)
Theorem unenrol_makes_room st user oid cid st' o ev user2 now cid2 c2 :
  UnenrolOccurrenceMutation user oid cid st = (Ok tt, st') →
  occurrences st !! oid = Some o →
  events st !! event_id o = Some ev →
  Z.of_nat (enrolment_count st oid) ≤ capacity_per_occurrence ev →
  is_authenticated user2 = true →
  children st !! cid2 = Some c2 →
  user_can_update st user2 cid2 = true →
  ¬ already_joined st cid2 (event_id o) →
  now ≤ time o →
  EnrolOccurrenceMutation user2 now oid cid2 st'
  = (Ok (new_enrolment st' now cid2 oid), enrol_store st' now cid2 oid).
Proof.
  intros Hrun Ho He Hcap Hu2 Hc2 Hg2 Hj2 Ht.
  apply unenrol_ok_inv in Hrun as (c & o' & r & _ & _ & _ & _ & Hrows & ->).
  pose proof (enrolment_count_unenrol_store st cid oid oid) as Hcount.
  rewrite decide_True, Hrows in Hcount by done. simpl in Hcount.
  rewrite (enrol_found _ user2 now oid cid2 o c2 ev) by done.
  rewrite decide_False; cycle 1.
  { rewrite joined_occurrences_nonempty. intros Hj. apply Hj2.
    by eapply already_joined_unenrol_store. }
  rewrite decide_False by lia. rewrite decide_False by lia. done.
Qed.

Lemma unenrol_makes_room_witness :
  EnrolOccurrenceMutation guardian7 45 12 1 (unenrol_store demo_full 2 12)
  = (Ok (new_enrolment (unenrol_store demo_full 2 12) 45 1 12),
     enrol_store (unenrol_store demo_full 2 12) 45 1 12).
Proof.
  apply (unenrol_makes_room demo_full guardian7 12 2 (unenrol_store demo_full 2 12)
           {| time := 50; event_id := 2; venue_id := 1; occurrence_language := text "fi" |}
           (draft 1) guardian7 45 1 {| first_name := "A" |}).
  - reflexivity.
  - reflexivity.
  - reflexivity.
  - vm_compute. discriminate.
  - reflexivity.
  - reflexivity.
  - reflexivity.
  - apply not_already_joined. reflexivity.
  - simpl. lia.
Defined.

Example demo_full_is_full :
  EnrolOccurrenceMutation guardian7 45 12 1 demo_full = (Raise MAXIMUM_ENROLMENTS, demo_full).
Proof. reflexivity. Qed.

(** X12. Changing slot: in a store where every child holds at most one
    enrolment per event, a child enrolled in one occurrence can be
    unenrolled and then enrolled in any other occurrence of the same event
    that is not in the past and has room. *)
Theorem unenrol_then_enrol_elsewhere st user now oid1 oid2 cid c o1 o2 ev :
  one_enrolment_per_event st →
  is_authenticated user = true →
  children st !! cid = Some c →
  user_can_update st user cid = true →
  occurrences st !! oid1 = Some o1 →
  occurrences st !! oid2 = Some o2 →
  event_id o2 = event_id o1 →
  events st !! event_id o2 = Some ev →
  enrolled st cid oid1 →
  now ≤ time o2 →
  Z.of_nat (enrolment_count (unenrol_store st cid oid1) oid2) < capacity_per_occurrence ev →
  UnenrolOccurrenceMutation user oid1 cid st = (Ok tt, unenrol_store st cid oid1) ∧
  EnrolOccurrenceMutation user now oid2 cid (unenrol_store st cid oid1)
  = (Ok (new_enrolment (unenrol_store st cid oid1) now cid oid2),
     enrol_store (unenrol_store st cid oid1) now cid oid2).
Proof.
  intros Hinv Hu Hc Hg Ho1 Ho2 Hev He Hen Ht Hcap.
  pose proof (Hinv cid (event_id o1)) as Hone.
  pose proof (enrolled_links st cid oid1 Hen) as Hne.
  pose proof (joined_unenrol_store st cid oid1 cid (event_id o1)) as Hsplit.
  rewrite Ho1, decide_True in Hsplit by done.
  destruct (filter (links cid oid1) (enrolments st)) as [|r [|r' rows]] eqn:Hrows;
    [done| |simpl in *; lia].
  simpl in Hsplit.
  assert (Hnil : joined_occurrences (unenrol_store st cid oid1) cid (event_id o2) = []).
  { rewrite Hev. apply length_zero_iff_nil. lia. }
  split.
  { rewrite (unenrol_found st user oid1 cid c o1) by done. by rewrite Hrows. }
  rewrite (enrol_found (unenrol_store st cid oid1) user now oid2 cid o2 c ev) by done.
  rewrite decide_False by (by rewrite Hnil; intros ?).
  rewrite decide_False by lia. rewrite decide_False by lia. done.
Qed.

Lemma unenrol_then_enrol_elsewhere_witness :
  UnenrolOccurrenceMutation guardian7 10 1 demo_enrolled
  = (Ok tt, unenrol_store demo_enrolled 1 10) ∧
  EnrolOccurrenceMutation guardian7 50 11 1 (unenrol_store demo_enrolled 1 10)
  = (Ok (new_enrolment (unenrol_store demo_enrolled 1 10) 50 1 11),
     enrol_store (unenrol_store demo_enrolled 1 10) 50 1 11).
Proof.
  apply (unenrol_then_enrol_elsewhere demo_enrolled guardian7 50 10 11 1
           {| first_name := "A" |}
           {| time := 100; event_id := 1; venue_id := 1; occurrence_language := text "fi" |}
           {| time := 200; event_id := 1; venue_id := 1; occurrence_language := text "sv" |}
           (draft 2)).
  - apply demo_enrolled_one_per_event.
  - reflexivity.
  - reflexivity.
  - reflexivity.
  - reflexivity.
  - reflexivity.
  - reflexivity.
  - reflexivity.
  - exists (new_enrolment demo 40 1 10). split; [left|split; reflexivity].
  - simpl. lia.
  - vm_compute. reflexivity.
Defined.

(** ** Publication: refusals and what enrolment makes of it *)

(** X13. A Publish request from a user who is not staff raises
    [PermissionDenied], and one from staff for an event that does not exist
    raises "Event matching query does not exist."; either way the store is
    as before and the outcome does not depend on the notification dispatch,
    which is not reached. *)
Theorem publish_refused dispatch user now id st :
  is_staff user = false ∨ events st !! id = None →
  PublishEventMutation dispatch user now id st =
    (Raise (if is_staff user then NOT_FOUND "Event" else PermissionDenied), st).
Proof.
  intros Hcase. unfold PublishEventMutation. run_monad.
  destruct (is_staff user) eqn:Hu; [|done].
  destruct Hcase as [|He]; [done|]. by rewrite He.
Qed.

Lemma publish_refused_witness :
  PublishEventMutation send_ok guardian7 70 1 demo =
    (Raise (if is_staff guardian7 then NOT_FOUND "Event" else PermissionDenied), demo).
Proof.
  apply (publish_refused send_ok guardian7 70 1 demo).
  left. reflexivity.
Defined.

(** X14. The handler for [Event.DoesNotExist] spans the notification
    dispatch: when the dispatch raises that exception for an event that was
    found and unpublished, the request reports "Event matching query does
    not exist.", as it does for an event that is not stored, and nothing is
    published. *)
Theorem dispatch_event_gone dispatch user now id ev st :
  is_staff user = true →
  events st !! id = Some ev →
  published_at ev = None →
  dispatch (Instance id (set_published_at ev (Some now))) EVENT_PUBLISHED
           (guardians_with_children st) = Raise (DoesNotExist "Event") →
  PublishEventMutation dispatch user now id st = (Raise (NOT_FOUND "Event"), st).
Proof.
  intros Hu He Hp Hsend.
  rewrite (publish_found dispatch user now id ev st) by done.
  rewrite Hp, Hsend. by rewrite decide_True.
Qed.

Lemma dispatch_event_gone_witness :
  PublishEventMutation send_event_gone staff1 70 1 demo = (Raise (NOT_FOUND "Event"), demo).
Proof.
  apply (dispatch_event_gone send_event_gone staff1 70 1 (draft 2) demo).
  - reflexivity.
  - reflexivity.
  - reflexivity.
  - reflexivity.
Defined.

(** [EnrolOccurrenceMutation] as one case distinction on the store. *)
Lemma enrol_unfold st user now oid cid :
  EnrolOccurrenceMutation user now oid cid st =
    if is_authenticated user then
      match occurrences st !! oid with
      | None => (Raise (NOT_FOUND "Occurrence"), st)
      | Some o =>
          match children st !! cid with
          | None => (Raise (NOT_FOUND "Child"), st)
          | Some c =>
              if user_can_update st user cid then
                match events st !! event_id o with
                | None => (Raise (DoesNotExist "Event"), st)
                | Some ev =>
                    if decide (joined_occurrences st cid (event_id o) ≠ [])
                    then (Raise CHILD_ALREADY_JOINED, st)
                    else if decide (Z.of_nat (enrolment_count st oid)
                                    >= capacity_per_occurrence ev)
                         then (Raise MAXIMUM_ENROLMENTS, st)
                    else if decide (time o < now)
                         then (Raise OCCURRENCE_IN_THE_PAST, st)
                    else (Ok (new_enrolment st now cid oid), enrol_store st now cid oid)
                end
              else (Raise (NOT_FOUND "Child"), st)
          end
      end
    else (Raise PermissionDenied, st).
Proof.
  destruct (is_authenticated user) eqn:Hu; cycle 1.
  { unfold EnrolOccurrenceMutation. run_monad. by rewrite Hu. }
  destruct (occurrences st !! oid) as [o|] eqn:Ho; cycle 1.
  { unfold EnrolOccurrenceMutation. run_monad. by rewrite Hu, Ho. }
  destruct (children st !! cid) as [c|] eqn:Hc; cycle 1.
  { unfold EnrolOccurrenceMutation, Child_objects_user_can_update_get.
    run_monad. rewrite Hu, Ho. simpl. by rewrite Hc. }
  destruct (user_can_update st user cid) eqn:Hg; cycle 1.
  { unfold EnrolOccurrenceMutation, Child_objects_user_can_update_get.
    run_monad. rewrite Hu, Ho. simpl. by rewrite Hc, Hg. }
  destruct (events st !! event_id o) as [ev|] eqn:He; cycle 1.
  { unfold EnrolOccurrenceMutation, Child_objects_user_can_update_get,
      validate_enrolment, occurrence_event.
    run_monad. rewrite Hu, Ho. simpl. rewrite Hc, Hg. simpl. by rewrite He. }
  by apply (enrol_found st user now oid cid o c ev).
Qed.

(** X15. Enrolment does not look at publication: overwriting the
    [published_at] of any event, before or after an Enrol request, gives the
    same result and the same store. Children can be enrolled in the
    occurrences of an event that was never published. *)
Theorem enrol_ignores_publication st id value user now oid cid :
  EnrolOccurrenceMutation user now oid cid (with_published_at st id value) =
  ((EnrolOccurrenceMutation user now oid cid st).1,
   with_published_at (EnrolOccurrenceMutation user now oid cid st).2 id value).
Proof.
  rewrite !enrol_unfold.
  change (occurrences (with_published_at st id value)) with (occurrences st).
  change (children (with_published_at st id value)) with (children st).
  change (user_can_update (with_published_at st id value) user cid)
    with (user_can_update st user cid).
  change (joined_occurrences (with_published_at st id value) cid)
    with (joined_occurrences st cid).
  change (enrolment_count (with_published_at st id value) oid)
    with (enrolment_count st oid).
  destruct (is_authenticated user); [|done].
  destruct (occurrences st !! oid) as [o|]; [|done].
  destruct (children st !! cid) as [c|]; [|done].
  destruct (user_can_update st user cid); [|done].
  simpl events. rewrite lookup_alter.
  destruct (decide (id = event_id o)) as [->|Hne];
    destruct (events st !! event_id o) as [ev|]; simpl;
    repeat case_decide; done.
Qed.

(** ** The occurrences query with any filters *)

Lemma elem_of_language_filter unicode value qs o :
  o ∈ apply_filter (filter_by_occurrence_language unicode)
                   (value ≫= clean_char_value) qs ↔
  o ∈ qs ∧ (∀ l, value = Some l → str_strip l ≠ [] →
                 occurrence_language (fields o) = str_lower unicode (str_strip l)).
Proof.
  unfold apply_filter, filter_by_occurrence_language, clean_char_value.
  destruct value as [l|]; simpl.
  - destruct (str_strip l) as [|c w] eqn:Hl.
    + split; [|tauto]. intros Hin. split; [done|].
      intros l0 [= <-] Hne. by rewrite Hl in Hne.
    + rewrite list_elem_of_filter. split.
      * intros [Heq Hin]. split; [done|]. intros l0 [= <-] _. by rewrite Hl.
      * intros [Hin Hsel]. split; [|done]. rewrite <- Hl.
        apply Hsel; [done|]. by rewrite Hl.
  - split; [|tauto]. intros Hin. split; [done|]. intros l [=].
Qed.

Lemma elem_of_filter_queryset unicode now args qs o :
  o ∈ filter_queryset unicode now args qs ↔ o ∈ qs ∧ selected unicode now args o.
Proof.
  unfold filter_queryset, selected. rewrite elem_of_language_filter.
  unfold apply_filter, filter_by_event_global_id, filter_by_venue_global_id,
    filter_by_upcoming.
  destruct args as [[[]|] [v|] [e|] l]; simpl;
    rewrite ?list_elem_of_filter;
    (split; [intros H; repeat split; intros; simplify_eq; try tauto; by apply H
            |intros (Hin & Hup & Hv & He & Hl'); repeat split; auto]).
Qed.

Lemma filter_queryset_sorted unicode now args qs :
  StronglySorted time_le qs →
  StronglySorted time_le (filter_queryset unicode now args qs).
Proof.
  intros Hs.
  unfold filter_queryset, apply_filter, filter_by_occurrence_language,
    filter_by_event_global_id, filter_by_venue_global_id, filter_by_upcoming,
    clean_char_value.
  destruct args as [[[]|] [v|] [e|] [l|]]; simpl;
    try destruct (str_strip l) as [|c w];
    repeat apply StronglySorted_filter; done.
Qed.

Lemma filter_queryset_NoDup unicode now args qs :
  NoDup qs → NoDup (filter_queryset unicode now args qs).
Proof.
  intros Hs.
  unfold filter_queryset, apply_filter, filter_by_occurrence_language,
    filter_by_event_global_id, filter_by_venue_global_id, filter_by_upcoming,
    clean_char_value.
  destruct args as [[[]|] [v|] [e|] [l|]]; simpl;
    try destruct (str_strip l) as [|c w];
    repeat apply NoDup_filter; done.
Qed.

(** X16. The filters of the occurrences query combine by conjunction and
    keep the order: for any arguments whose language value holds no null
    character, the answer is ascending by time, without repetitions, and
    holds exactly the stored occurrences that meet every filter that is
    given. The language value is stripped of surrounding white space before
    it is lowered and compared; a filter that is absent asks nothing, and
    neither do [upcoming=false] and a language value that is empty once
    stripped. *)
Theorem query_occurrences_selected unicode st user now args :
  is_authenticated user = true →
  (∀ l, language args = Some l → 0%N ∉ l) →
  ∃ qs, Query_occurrences unicode user now args st = (Ok qs, st) ∧
        StronglySorted time_le qs ∧
        NoDup qs ∧
        ∀ o, o ∈ qs ↔ occurrences st !! pk o = Some (fields o) ∧
                      selected unicode now args o.
Proof.
  intros Hu _. rewrite query_occurrences_run by done.
  eexists. split; [reflexivity|]. split; [|split].
  - apply filter_queryset_sorted, StronglySorted_merge_sort; apply _.
  - apply filter_queryset_NoDup. unfold order_by_time.
    rewrite merge_sort_Permutation.
    unfold Occurrence_objects_all. apply (NoDup_fmap_2 _).
    apply NoDup_map_to_list.
  - intros o. rewrite elem_of_filter_queryset. unfold order_by_time.
    rewrite merge_sort_Permutation, elem_of_Occurrence_objects_all. done.
Qed.

Lemma query_occurrences_selected_witness :
  ∃ qs, Query_occurrences ascii_greek guardian7 60 demo_filter demo = (Ok qs, demo) ∧
        StronglySorted time_le qs ∧
        NoDup qs ∧
        ∀ o, o ∈ qs ↔ occurrences demo !! pk o = Some (fields o) ∧
                      selected ascii_greek 60 demo_filter o.
Proof.
  apply (query_occurrences_selected ascii_greek demo guardian7 60 demo_filter).
  - reflexivity.
  - intros l [= <-]. apply (bool_decide_unpack _). reflexivity.
Defined.

Example demo_filter_run :
  match (Query_occurrences ascii_greek guardian7 60 demo_filter demo).1 with
  | Ok qs => pk <$> qs
  | Raise _ => []
  end = [12%nat; 10%nat].
Proof. reflexivity. Qed.

Example demo_filter_blank :
  match (Query_occurrences ascii_greek guardian7 60
           (set_language only_upcoming (text "  ")) demo).1 with
  | Ok qs => pk <$> qs
  | Raise _ => []
  end = [10%nat; 11%nat].
Proof. reflexivity. Qed.

Lemma has_upper_app s t : has_upper (s ++ t) ↔ has_upper s ∨ has_upper t.
Proof. induction s as [|c s IH]; simpl; tauto. Qed.

Lemma has_upper_elem_of s : has_upper s → ∃ d, d ∈ s ∧ is_upper d.
Proof.
  induction s as [|c s IH]; simpl; [done|].
  intros [Hc|Hs].
  - exists c. split; [left|done].
  - destruct (IH Hs) as (d & Hd & Hup). exists d. split; [by right|done].
Qed.

Lemma lower_from_has_no_upper unicode before s :
  lowers_to_no_capital unicode → ¬ has_upper (lower_from unicode before s).
Proof.
  intros Hlow. revert before. induction s as [|c s IH]; intros before; simpl; [tauto|].
  rewrite has_upper_app. intros [Hc|Hs]; [|by apply IH in Hs].
  destruct (c =? CAPITAL_SIGMA)%N.
  - destruct (final_sigma unicode before s); simpl in Hc;
      unfold is_upper, SMALL_FINAL_SIGMA, SMALL_SIGMA in Hc; lia.
  - apply has_upper_elem_of in Hc as (d & Hd & Hup). by apply (Hlow c d).
Qed.

(** X17. The language filter lowers the value it is given, not the stored
    one: as no code point lowers to an upper-case ASCII letter, an
    occurrence whose stored language holds such a letter is selected by no
    value of the filter. *)
Theorem language_filter_misses_upper_case unicode o qs value :
  lowers_to_no_capital unicode →
  has_upper (occurrence_language (fields o)) →
  o ∉ filter_by_occurrence_language unicode qs value.
Proof.
  intros Hlow Hup Hin. unfold filter_by_occurrence_language in Hin.
  apply list_elem_of_filter in Hin as [Heq _].
  rewrite Heq in Hup. by apply (lower_from_has_no_upper unicode [] value Hlow).
Qed.

Lemma ascii_greek_lowers_to_no_capital : lowers_to_no_capital ascii_greek.
Proof.
  intros c d Hd. unfold is_upper. simpl in Hd.
  destruct ((65 <=? c) && (c <=? 90))%N eqn:Hc.
  { apply andb_true_iff in Hc as [H1 H2]. apply N.leb_le in H1.
    apply list_elem_of_singleton in Hd as ->. lia. }
  destruct (N.eqb_spec c 913) as [->|_].
  { apply list_elem_of_singleton in Hd as ->. lia. }
  destruct (N.eqb_spec c CAPITAL_SIGMA) as [->|_].
  { apply list_elem_of_singleton in Hd as ->. unfold SMALL_SIGMA. lia. }
  apply list_elem_of_singleton in Hd as ->.
  apply andb_false_iff in Hc as [Hc|Hc]; apply N.leb_gt in Hc; lia.
Qed.

Lemma language_filter_misses_upper_case_witness :
  stored_upper ∉ filter_by_occurrence_language ascii_greek [stored_upper] (text "FI").
Proof.
  apply (language_filter_misses_upper_case ascii_greek stored_upper [stored_upper]
           (text "FI")).
  - apply ascii_greek_lowers_to_no_capital.
  - simpl. left. unfold is_upper. simpl. lia.
Defined.

(** ** Occurrence and event administration *)

(** X18. Adding and deleting are for staff: a request from any other user
    raises [PermissionDenied] and leaves the store as it was, whether or not
    the keys it names exist. *)
Theorem administration_staff_only venues lang user time eid vid id st :
  is_staff user = false →
  AddOccurrenceMutation venues lang user time eid vid st = (Raise PermissionDenied, st) ∧
  DeleteOccurrenceMutation user id st = (Raise PermissionDenied, st) ∧
  DeleteEventMutation user id st = (Raise PermissionDenied, st).
Proof.
  intros Hu.
  unfold AddOccurrenceMutation, DeleteOccurrenceMutation, DeleteEventMutation.
  run_monad. by rewrite Hu.
Qed.

Lemma administration_staff_only_witness :
  AddOccurrenceMutation demo_venues (text "fi") guardian7 300 1 1 demo
    = (Raise PermissionDenied, demo) ∧
  DeleteOccurrenceMutation guardian7 10 demo = (Raise PermissionDenied, demo) ∧
  DeleteEventMutation guardian7 10 demo = (Raise PermissionDenied, demo).
Proof.
  apply (administration_staff_only demo_venues (text "fi") guardian7 300 1 1 10 demo).
  reflexivity.
Defined.

(** X19. AddOccurrence checks the event, then the venue: for a staff
    member, an event key that is not stored raises "Event matching query
    does not exist." whatever the venue key is, a stored event with a venue
    key that is not stored raises "Venue matching query does not exist.",
    and in both cases no occurrence is added. *)
Theorem add_occurrence_validates venues lang user time eid vid st :
  is_staff user = true →
  events st !! eid = None ∨ vid ∉ venues →
  AddOccurrenceMutation venues lang user time eid vid st =
    (Raise (match events st !! eid with
            | None => NOT_FOUND "Event"
            | Some _ => NOT_FOUND "Venue"
            end), st).
Proof.
  intros Hu Hcase. unfold AddOccurrenceMutation, Venue_objects_get. run_monad.
  rewrite Hu. destruct (events st !! eid) as [ev|] eqn:He; [|done].
  destruct Hcase as [|Hv]; [done|]. by rewrite decide_False.
Qed.

Lemma add_occurrence_validates_witness :
  AddOccurrenceMutation demo_venues (text "fi") staff1 300 1 5 demo =
    (Raise (match events demo !! 1%nat with
            | None => NOT_FOUND "Event"
            | Some _ => NOT_FOUND "Venue"
            end), demo).
Proof.
  apply (add_occurrence_validates demo_venues (text "fi") staff1 300 1 5 demo).
  - reflexivity.
  - right. apply (bool_decide_unpack _). reflexivity.
Defined.

Lemma fresh_occurrence_key st :
  occurrences st !! fresh (dom (occurrences st)) = None.
Proof. apply not_elem_of_dom. apply is_fresh. Qed.

Lemma add_occurrence_found venues lang user time eid vid ev st :
  is_staff user = true →
  events st !! eid = Some ev →
  vid ∈ venues →
  AddOccurrenceMutation venues lang user time eid vid st
  = (Ok (Instance (fresh (dom (occurrences st)))
           {| time := time; event_id := eid; venue_id := vid;
              occurrence_language := lang |}),
     set_occurrences st
       (<[fresh (dom (occurrences st)) :=
            {| time := time; event_id := eid; venue_id := vid;
               occurrence_language := lang |}]> (occurrences st))).
Proof.
  intros Hu He Hv.
  unfold AddOccurrenceMutation, Venue_objects_get, Occurrence_objects_create.
  run_monad. rewrite Hu, He. simpl. by rewrite decide_True.
Qed.

(** X20. A staff request to add an occurrence to a stored event at a
    stored venue succeeds for any time, past times included. The new
    occurrence gets a key that was not in use, carries the time, event and
    venue given and the default language, and can be looked up afterwards;
    the occurrences that were stored and all other tables stay as they
    were. *)
Theorem add_occurrence_stores venues lang user time eid vid ev st :
  is_staff user = true →
  events st !! eid = Some ev →
  vid ∈ venues →
  ∃ key st',
    AddOccurrenceMutation venues lang user time eid vid st
      = (Ok (Instance key {| time := time; event_id := eid; venue_id := vid;
                             occurrence_language := lang |}), st') ∧
    occurrences st !! key = None ∧
    occurrences st' !! key = Some {| time := time; event_id := eid; venue_id := vid;
                                     occurrence_language := lang |} ∧
    (∀ k, k ≠ key → occurrences st' !! k = occurrences st !! k) ∧
    events st' = events st ∧ children st' = children st ∧
    guardians st' = guardians st ∧ enrolments st' = enrolments st.
Proof.
  intros Hu He Hv. exists (fresh (dom (occurrences st))).
  rewrite (add_occurrence_found venues lang user time eid vid ev st) by done.
  eexists. split; [reflexivity|]. simpl.
  split; [apply fresh_occurrence_key|].
  split; [apply lookup_insert_eq|].
  split; [|done]. intros k Hk. by rewrite lookup_insert_ne.
Qed.

Lemma add_occurrence_stores_witness :
  ∃ key st',
    AddOccurrenceMutation demo_venues (text "fi") staff1 30 1 1 demo
      = (Ok (Instance key {| time := 30; event_id := 1; venue_id := 1;
                             occurrence_language := text "fi" |}), st') ∧
    occurrences demo !! key = None ∧
    occurrences st' !! key = Some {| time := 30; event_id := 1; venue_id := 1;
                                     occurrence_language := text "fi" |} ∧
    (∀ k, k ≠ key → occurrences st' !! k = occurrences demo !! k) ∧
    events st' = events demo ∧ children st' = children demo ∧
    guardians st' = guardians demo ∧ enrolments st' = enrolments demo.
Proof.
  apply (add_occurrence_stores demo_venues (text "fi") staff1 30 1 1 (draft 2) demo).
  - reflexivity.
  - reflexivity.
  - apply (bool_decide_unpack _). reflexivity.
Defined.

Lemma add_occurrence_cases venues lang user time eid vid st :
  (∃ e, AddOccurrenceMutation venues lang user time eid vid st = (Raise e, st)) ∨
  (∃ ev o, events st !! eid = Some ev ∧ event_id o = eid ∧
           AddOccurrenceMutation venues lang user time eid vid st
           = (Ok (Instance (fresh (dom (occurrences st))) o),
              set_occurrences st (<[fresh (dom (occurrences st)) := o]> (occurrences st)))).
Proof.
  unfold AddOccurrenceMutation, Venue_objects_get, Occurrence_objects_create.
  run_monad.
  destruct (is_staff user); [|left; by eexists].
  destruct (events st !! eid) as [ev|] eqn:He; [|left; by eexists].
  simpl. case_decide; [|left; by eexists].
  right. eexists ev, _. split; [done|]. split; [|reflexivity]. done.
Qed.

(** With no row pointing to the new key, the children's occurrences are
    the same lists after an occurrence is added. *)
Lemma child_occurrences_add st key o child :
  (∀ r, r ∈ enrolments st → enrolment_occurrence r ≠ key) →
  child_occurrences (set_occurrences st (<[key := o]> (occurrences st))) child
  = child_occurrences st child.
Proof.
  unfold child_occurrences. simpl.
  induction (enrolments st) as [|r rows IH]; intros Hrows; [done|].
  cbn [omap list_omap].
  rewrite lookup_insert_ne by (apply not_eq_sym, Hrows; left).
  destruct (decide (enrolment_child r = child)); simpl.
  - destruct (occurrences st !! enrolment_occurrence r); simpl.
    + f_equal. apply IH. intros r' Hr'. apply Hrows. by right.
    + apply IH. intros r' Hr'. apply Hrows. by right.
  - apply IH. intros r' Hr'. apply Hrows. by right.
Qed.

Lemma rows_avoid_fresh_key st :
  referential_integrity st →
  ∀ r, r ∈ enrolments st → enrolment_occurrence r ≠ fresh (dom (occurrences st)).
Proof.
  intros [Hrows _] r Hr Heq. destruct (Hrows r Hr) as [o Ho].
  rewrite Heq, fresh_occurrence_key in Ho. done.
Qed.

(** X21. AddOccurrence keeps the store consistent: whatever the request,
    if every enrolment pointed to a stored occurrence and every occurrence
    to a stored event before, this is so afterwards, no child has joined or
    left any event, and the enrolment rows are the same. *)
Theorem add_occurrence_keeps_integrity venues lang user time eid vid st :
  referential_integrity st →
  referential_integrity (AddOccurrenceMutation venues lang user time eid vid st).2 ∧
  enrolments (AddOccurrenceMutation venues lang user time eid vid st).2 = enrolments st ∧
  ∀ child event,
    joined_occurrences (AddOccurrenceMutation venues lang user time eid vid st).2 child event
    = joined_occurrences st child event.
Proof.
  intros Hri.
  destruct (add_occurrence_cases venues lang user time eid vid st)
    as [[e ->]|(ev & o & He & Hev & ->)]; [done|].
  simpl. split; [|split; [done|]].
  - destruct Hri as [Hrows Hoccs]. split; simpl.
    + intros r Hr. destruct (Hrows r Hr) as [o' Ho'].
      exists o'. rewrite lookup_insert_ne; [done|].
      intros Heq. rewrite <- Heq, fresh_occurrence_key in Ho'. done.
    + intros oid o' Ho'. apply lookup_insert_Some in Ho' as [[_ <-]|[_ Ho']].
      * rewrite Hev. by eexists.
      * by eapply Hoccs.
  - intros child event. unfold joined_occurrences.
    rewrite child_occurrences_add; [done|]. by apply rows_avoid_fresh_key.
Qed.

Lemma demo_referential_integrity : referential_integrity demo.
Proof.
  split.
  - intros r Hr. by apply elem_of_nil in Hr.
  - intros oid o Ho. unfold demo in Ho. simpl in Ho.
    apply lookup_insert_Some in Ho as [[_ <-]|[_ Ho]]; [by eexists|].
    apply lookup_insert_Some in Ho as [[_ <-]|[_ Ho]]; [by eexists|].
    apply lookup_singleton_Some in Ho as [_ <-]. by eexists.
Qed.

Lemma add_occurrence_keeps_integrity_witness :
  referential_integrity (AddOccurrenceMutation demo_venues (text "fi") staff1 300 1 1 demo).2 ∧
  enrolments (AddOccurrenceMutation demo_venues (text "fi") staff1 300 1 1 demo).2
    = enrolments demo ∧
  ∀ child event,
    joined_occurrences (AddOccurrenceMutation demo_venues (text "fi") staff1 300 1 1 demo).2
                       child event
    = joined_occurrences demo child event.
Proof.
  apply (add_occurrence_keeps_integrity demo_venues (text "fi") staff1 300 1 1 demo).
  apply demo_referential_integrity.
Defined.

Lemma enrolment_count_fresh_key st :
  referential_integrity st →
  enrolment_count st (fresh (dom (occurrences st))) = 0%nat.
Proof.
  intros Hri. unfold enrolment_count, occurrence_enrolments.
  apply length_zero_iff_nil.
  destruct (filter _ (enrolments st)) as [|r rows] eqn:Hf; [done|].
  assert (Hr : r ∈ filter (fun r => enrolment_occurrence r = fresh (dom (occurrences st)))
                          (enrolments st)) by (rewrite Hf; left).
  apply list_elem_of_filter in Hr as [Heq Hr].
  by apply (rows_avoid_fresh_key st Hri) in Hr.
Qed.

(** X22. From adding to enrolling: in a consistent store, once staff have
    added an occurrence that is not in the past to an event with capacity
    for at least one child, a guardian can enrol a child that is not in the
    event yet in the new occurrence. *)
Theorem add_occurrence_then_enrol venues lang staff time eid vid ev st user now cid c :
  referential_integrity st →
  is_staff staff = true →
  events st !! eid = Some ev →
  vid ∈ venues →
  0 < capacity_per_occurrence ev →
  now ≤ time →
  is_authenticated user = true →
  children st !! cid = Some c →
  user_can_update st user cid = true →
  ¬ already_joined st cid eid →
  ∃ occurrence st1 e st2,
    AddOccurrenceMutation venues lang staff time eid vid st = (Ok occurrence, st1) ∧
    EnrolOccurrenceMutation user now (pk occurrence) cid st1 = (Ok e, st2) ∧
    association e = (cid, pk occurrence).
Proof.
  intros Hri Hs He Hv Hcap Ht Hu Hc Hg Hj.
  rewrite (add_occurrence_found venues lang staff time eid vid ev st) by done.
  eexists _, _, _, _. split; [reflexivity|]. cbn [pk].
  rewrite (enrol_found _ user now _ cid
             {| time := time; event_id := eid; venue_id := vid;
                occurrence_language := lang |} c ev);
    [|done|simpl; apply lookup_insert_eq|done|done|done].
  cbn [event_id].
  rewrite decide_False; cycle 1.
  { unfold joined_occurrences. rewrite child_occurrences_add
      by (by apply rows_avoid_fresh_key).
    fold (joined_occurrences st cid eid). by rewrite joined_occurrences_nonempty. }
  change (enrolment_count (set_occurrences st _) ?k) with (enrolment_count st k).
  rewrite enrolment_count_fresh_key by done.
  rewrite decide_False by (simpl; lia). rewrite decide_False by (simpl; lia).
  split; reflexivity.
Qed.

Lemma add_occurrence_then_enrol_witness :
  ∃ occurrence st1 e st2,
    AddOccurrenceMutation demo_venues (text "fi") staff1 300 1 1 demo = (Ok occurrence, st1) ∧
    EnrolOccurrenceMutation guardian7 60 (pk occurrence) 1 st1 = (Ok e, st2) ∧
    association e = (1%nat, pk occurrence).
Proof.
  apply (add_occurrence_then_enrol demo_venues (text "fi") staff1 300 1 1 (draft 2) demo
           guardian7 60 1 {| first_name := "A" |}).
  - apply demo_referential_integrity.
  - reflexivity.
  - reflexivity.
  - apply (bool_decide_unpack _). reflexivity.
  - simpl. lia.
  - lia.
  - reflexivity.
  - reflexivity.
  - reflexivity.
  - apply not_already_joined. reflexivity.
Defined.

(** X23. Deleting what is not stored: for a staff member,
    DeleteOccurrence with a key that is not in the occurrence table raises
    "Occurrence matching query does not exist.", DeleteEvent with a key that
    is not in the event table raises "Event matching query does not
    exist.", and the store stays as it was. *)
Theorem delete_unknown user oid eid st :
  is_staff user = true →
  occurrences st !! oid = None →
  events st !! eid = None →
  DeleteOccurrenceMutation user oid st = (Raise (NOT_FOUND "Occurrence"), st) ∧
  DeleteEventMutation user eid st = (Raise (NOT_FOUND "Event"), st).
Proof.
  intros Hu Ho He. unfold DeleteOccurrenceMutation, DeleteEventMutation.
  run_monad. by rewrite Hu, Ho, He.
Qed.

Lemma delete_unknown_witness :
  DeleteOccurrenceMutation staff1 13 demo = (Raise (NOT_FOUND "Occurrence"), demo) ∧
  DeleteEventMutation staff1 3 demo = (Raise (NOT_FOUND "Event"), demo).
Proof.
  apply (delete_unknown staff1 13 3 demo); reflexivity.
Defined.

Lemma delete_occurrence_found user id o st :
  is_staff user = true →
  occurrences st !! id = Some o →
  DeleteOccurrenceMutation user id st =
    (Ok tt,
     {| events := events st; occurrences := delete id (occurrences st);
        children := children st; guardians := guardians st;
        enrolments := filter (fun r => enrolment_occurrence r ≠ id) (enrolments st);
        enrolment_seq := enrolment_seq st |}).
Proof.
  intros Hu Ho. unfold DeleteOccurrenceMutation, Occurrence_delete.
  run_monad. by rewrite Hu, Ho.
Qed.

(** The children's occurrences after an occurrence is deleted with its
    enrolments are among those from before. *)
Lemma joined_delete_occurrence_le (occs : gmap nat Occurrence) id child event
    (rows : list Enrolment) :
  (length (filter (fun o : instance Occurrence => event_id (fields o) = event)
     (omap (fun r => if decide (enrolment_child r = child)
                     then Instance (enrolment_occurrence r)
                            <$> delete id occs !! enrolment_occurrence r
                     else None)
           (filter (fun r => enrolment_occurrence r ≠ id) rows)))
   ≤ length (filter (fun o : instance Occurrence => event_id (fields o) = event)
     (omap (fun r => if decide (enrolment_child r = child)
                     then Instance (enrolment_occurrence r)
                            <$> occs !! enrolment_occurrence r
                     else None) rows)))%nat.
Proof.
  induction rows as [|r rows IH]; [done|].
  rewrite filter_cons. destruct (decide (enrolment_occurrence r ≠ id)) as [Hne|Heq].
  - cbn [omap list_omap]. rewrite lookup_delete_ne by done.
    destruct (decide (enrolment_child r = child)); simpl; [|done].
    destruct (occs !! enrolment_occurrence r); simpl; [|done].
    rewrite !filter_cons. case_decide; simpl; lia.
  - cbn [omap list_omap].
    destruct (decide (enrolment_child r = child)); simpl; [|done].
    destruct (occs !! enrolment_occurrence r); simpl; [|done].
    rewrite filter_cons. case_decide; simpl; lia.
Qed.

(** X24. A staff request to delete a stored occurrence succeeds. With the
    cascade to enrolments taken from the spec, the occurrence and the rows
    that pointed to it are gone while every other occurrence, every other
    row and the events stay; a consistent store stays consistent, no child
    gains an enrolment in any event, and an Enrol request for the deleted
    key now raises "Occurrence matching query does not exist.". *)
Theorem delete_occurrence_removes user id o st :
  is_staff user = true →
  occurrences st !! id = Some o →
  ∃ st',
    DeleteOccurrenceMutation user id st = (Ok tt, st') ∧
    occurrences st' = delete id (occurrences st) ∧
    enrolments st' = filter (fun r => enrolment_occurrence r ≠ id) (enrolments st) ∧
    events st' = events st ∧
    (referential_integrity st → referential_integrity st') ∧
    (one_enrolment_per_event st → one_enrolment_per_event st') ∧
    ∀ user2 now cid,
      is_authenticated user2 = true →
      EnrolOccurrenceMutation user2 now id cid st' = (Raise (NOT_FOUND "Occurrence"), st').
Proof.
  intros Hu Ho. rewrite (delete_occurrence_found user id o st) by done.
  eexists. split; [reflexivity|]. simpl.
  split; [done|]. split; [done|]. split; [done|]. split; [|split].
  - intros [Hrows Hoccs]. split; simpl.
    + intros r Hr. apply list_elem_of_filter in Hr as [Hne Hr].
      rewrite lookup_delete_ne by done. by apply Hrows.
    + intros oid o' Ho'. apply lookup_delete_Some in Ho' as [_ Ho'].
      by eapply Hoccs.
  - intros Hinv child event. specialize (Hinv child event).
    unfold joined_occurrences, child_occurrences in *. simpl.
    pose proof (joined_delete_occurrence_le (occurrences st) id child event
                  (enrolments st)).
    lia.
  - intros user2 now cid Hu2. rewrite enrol_unfold, Hu2. simpl.
    by rewrite lookup_delete_eq.
Qed.

Lemma delete_occurrence_removes_witness :
  ∃ st',
    DeleteOccurrenceMutation staff1 10 demo_enrolled = (Ok tt, st') ∧
    occurrences st' = delete 10%nat (occurrences demo_enrolled) ∧
    enrolments st' = filter (fun r => enrolment_occurrence r ≠ 10%nat)
                            (enrolments demo_enrolled) ∧
    events st' = events demo_enrolled ∧
    (referential_integrity demo_enrolled → referential_integrity st') ∧
    (one_enrolment_per_event demo_enrolled → one_enrolment_per_event st') ∧
    ∀ user2 now cid,
      is_authenticated user2 = true →
      EnrolOccurrenceMutation user2 now 10 cid st' = (Raise (NOT_FOUND "Occurrence"), st').
Proof.
  apply (delete_occurrence_removes staff1 10
           {| time := 100; event_id := 1; venue_id := 1; occurrence_language := text "fi" |}
           demo_enrolled).
  - reflexivity.
  - reflexivity.
Defined.

Example demo_delete_occurrence :
  association <$> enrolments (DeleteOccurrenceMutation staff1 10 demo_enrolled).2
  = [(1%nat, 12%nat)].
Proof. reflexivity. Qed.

Lemma delete_event_found user id ev st :
  is_staff user = true →
  events st !! id = Some ev →
  DeleteEventMutation user id st =
    (Ok tt,
     {| events := delete id (events st);
        occurrences := filter (fun kv => event_id kv.2 ≠ id) (occurrences st);
        children := children st; guardians := guardians st;
        enrolments := filter (fun r => ¬ occurrence_of_event st id (enrolment_occurrence r))
                             (enrolments st);
        enrolment_seq := enrolment_seq st |}).
Proof.
  intros Hu He. unfold DeleteEventMutation, Event_delete.
  run_monad. by rewrite Hu, He.
Qed.

(** X25. A staff request to delete a stored event succeeds. With the
    cascade taken from the spec, the event is gone, the occurrences left
    are exactly those of other events, the enrolments left are exactly
    those that did not point to an occurrence of the event, and a
    consistent store stays consistent: nothing is left pointing to what was
    deleted. *)
Theorem delete_event_cascades user id ev st :
  is_staff user = true →
  events st !! id = Some ev →
  ∃ st',
    DeleteEventMutation user id st = (Ok tt, st') ∧
    events st' = delete id (events st) ∧
    (∀ oid o, occurrences st' !! oid = Some o ↔
              occurrences st !! oid = Some o ∧ event_id o ≠ id) ∧
    (∀ r, r ∈ enrolments st' ↔
          r ∈ enrolments st ∧ ¬ occurrence_of_event st id (enrolment_occurrence r)) ∧
    (referential_integrity st → referential_integrity st').
Proof.
  intros Hu He. rewrite (delete_event_found user id ev st) by done.
  eexists. split; [reflexivity|]. simpl.
  split; [done|].
  assert (Hocc : ∀ oid o,
            filter (fun kv : nat * Occurrence => event_id kv.2 ≠ id) (occurrences st)
              !! oid = Some o ↔
            occurrences st !! oid = Some o ∧ event_id o ≠ id).
  { intros oid o. by rewrite map_lookup_filter_Some. }
  split; [exact Hocc|].
  assert (Hrow : ∀ r,
            r ∈ filter (fun r => ¬ occurrence_of_event st id (enrolment_occurrence r))
                       (enrolments st) ↔
            r ∈ enrolments st ∧ ¬ occurrence_of_event st id (enrolment_occurrence r)).
  { intros r. rewrite list_elem_of_filter. tauto. }
  split; [exact Hrow|].
  intros [Hrows Hoccs]. split; simpl.
  - intros r Hr. apply Hrow in Hr as [Hr Hn].
    destruct (Hrows r Hr) as [o Ho]. exists o. apply Hocc. split; [done|].
    intros Hev. apply Hn. by exists o.
  - intros oid o Ho. apply Hocc in Ho as [Ho Hne].
    destruct (Hoccs oid o Ho) as [ev' Hev']. exists ev'.
    by rewrite lookup_delete_ne.
Qed.

Lemma delete_event_cascades_witness :
  ∃ st',
    DeleteEventMutation staff1 1 demo_enrolled = (Ok tt, st') ∧
    events st' = delete 1%nat (events demo_enrolled) ∧
    (∀ oid o, occurrences st' !! oid = Some o ↔
              occurrences demo_enrolled !! oid = Some o ∧ event_id o ≠ 1%nat) ∧
    (∀ r, r ∈ enrolments st' ↔
          r ∈ enrolments demo_enrolled ∧
          ¬ occurrence_of_event demo_enrolled 1 (enrolment_occurrence r)) ∧
    (referential_integrity demo_enrolled → referential_integrity st').
Proof.
  apply (delete_event_cascades staff1 1 (draft 2) demo_enrolled).
  - reflexivity.
  - reflexivity.
Defined.

Example demo_delete_event :
  association <$> enrolments (DeleteEventMutation staff1 1 demo_enrolled).2
  = [(1%nat, 12%nat)].
Proof. reflexivity. Qed.

(** ** What Enrol and Unenrol leave alone *)

Lemma handle_keeps_tables st rq :
  events (handle st rq) = events st ∧ occurrences (handle st rq) = occurrences st ∧
  children (handle st rq) = children st ∧ guardians (handle st rq) = guardians st ∧
  ∀ r, r ∈ enrolments (handle st rq) →
       r ∈ enrolments st ∨ is_Some (occurrences st !! enrolment_occurrence r).
Proof.
  destruct rq as [user now oid cid|user oid cid]; simpl.
  - destruct (enrol_cases st user now oid cid)
      as [[e ->]|(o & ev & Ho & _ & _ & _ & _ & ->)]; simpl.
    + repeat split; auto.
    + repeat split; try done. intros r Hr.
      apply elem_of_app in Hr as [Hr|Hr]; [by left|].
      apply list_elem_of_singleton in Hr as ->. right. simpl. by eexists.
  - destruct (unenrol_cases st user oid cid) as [[e ->]|(r & _ & ->)]; simpl.
    + repeat split; auto.
    + repeat split; try done. intros r' Hr'.
      apply list_elem_of_filter in Hr' as [_ Hr']. by left.
Qed.

(** X26. Enrol and Unenrol requests, however many and whoever sends them,
    never touch the event, occurrence, child and guardian tables, and they
    keep the store consistent: if every enrolment pointed to a stored
    occurrence and every occurrence to a stored event before, this is so
    afterwards. *)
Theorem requests_keep_integrity st0 rqs :
  referential_integrity st0 →
  referential_integrity (run_requests st0 rqs) ∧
  events (run_requests st0 rqs) = events st0 ∧
  occurrences (run_requests st0 rqs) = occurrences st0 ∧
  children (run_requests st0 rqs) = children st0 ∧
  guardians (run_requests st0 rqs) = guardians st0.
Proof.
  revert st0. unfold run_requests.
  induction rqs as [|rq rqs IH]; intros st0 Hri; simpl; [done|].
  destruct (handle_keeps_tables st0 rq) as (He & Ho & Hc & Hg & Hrows).
  destruct (IH (handle st0 rq)) as (Hri' & He' & Ho' & Hc' & Hg').
  { destruct Hri as [Hr Hoc]. split.
    - intros r Hin. rewrite Ho. destruct (Hrows r Hin) as [Hold|Hnew]; auto.
    - intros oid o Hoid. rewrite Ho in Hoid. rewrite He. by eapply Hoc. }
  repeat split; try apply Hri'; congruence.
Qed.

Lemma requests_keep_integrity_witness :
  referential_integrity (run_requests demo demo_requests) ∧
  events (run_requests demo demo_requests) = events demo ∧
  occurrences (run_requests demo demo_requests) = occurrences demo ∧
  children (run_requests demo demo_requests) = children demo ∧
  guardians (run_requests demo demo_requests) = guardians demo.
Proof.
  apply (requests_keep_integrity demo demo_requests).
  apply demo_referential_integrity.
Defined.

(** * Publication and concurrency: what fails as stated *)

(** C4 as stated fails. Without the proviso that the notification
    dispatch returns, the first Publish request need not set
    [published_at]: when the dispatch raises, the request is rolled back,
    the event stays unpublished, and the next Publish request by staff goes
    through instead of raising "Event is already published". *)
Lemma first_publish_may_not_publish :
  ¬ (∀ dispatch user now id ev st,
       is_staff user = true →
       events st !! id = Some ev →
       published_at ev = None →
       (∃ event, events (PublishEventMutation dispatch user now id st).2 !! id
                 = Some event ∧ published_at event = Some now) ∧
       ∀ call, is_staff (call_user call) = true →
               (PublishEventMutation (call_send call) (call_user call) (call_now call) id
                  (PublishEventMutation dispatch user now id st).2).1
               = Raise ALREADY_PUBLISHED).
Proof.
  intros H.
  destruct (H send_fails staff1 70 1%nat (draft 2) demo) as [_ Hnext];
    try reflexivity.
  specialize (Hnext {| call_send := send_ok; call_user := staff1; call_now := 80 |}).
  vm_compute in Hnext. specialize (Hnext eq_refl). discriminate.
Qed.

(** ** Two Enrol requests for the last place *)

(** [EnrolOccurrenceMutation] is its checks followed by its insertion. *)
Lemma enrol_checks_then_insert user now oid cid st :
  EnrolOccurrenceMutation user now oid cid st =
  enrol_insert now (enrol_checks user now oid cid st).1
                   (enrol_checks user now oid cid st).2.
Proof.
  unfold EnrolOccurrenceMutation, enrol_checks, enrol_insert,
    Child_objects_user_can_update_get, validate_enrolment, occurrence_event,
    Enrolment_objects_create.
  run_monad.
  destruct (is_authenticated user); [|done].
  destruct (occurrences st !! oid) as [o|]; [|done]. simpl.
  destruct (children st !! cid) as [c|]; [|done].
  destruct (user_can_update st user cid); [|done]. simpl.
  destruct (events st !! event_id o) as [ev|]; [|done]. simpl.
  repeat case_bool_decide; done.
Qed.

(** The checks of an eligible request pass while there is room, and leave
    the store as it is. *)
Lemma enrol_checks_pass st oid o ev rq :
  occurrences st !! oid = Some o →
  events st !! event_id o = Some ev →
  eligible st o rq →
  Z.of_nat (enrolment_count st oid) < capacity_per_occurrence ev →
  ∃ c, children st !! request_child rq = Some c ∧
       enrol_checks (request_user rq) (request_now rq) oid (request_child rq) st
       = (Ok (Instance (request_child rq) c, Instance oid o), st).
Proof.
  intros Ho He (Hu & [c Hc] & Hg & Hj & Ht) Hcap. exists c. split; [done|].
  unfold enrol_checks, Child_objects_user_can_update_get, validate_enrolment,
    occurrence_event.
  run_monad. rewrite Hu, Ho. simpl. rewrite Hc, Hg. simpl. rewrite He. simpl.
  rewrite bool_decide_eq_false_2 by (by rewrite joined_occurrences_nonempty).
  unfold enrolment_count in Hcap. simpl in Ht.
  repeat case_bool_decide; try done; lia.
Qed.

(** Two eligible requests for the last place, one after the other: the
    first is enrolled and the second is refused. *)
Lemma one_then_other st oid o ev rqa rqb :
  occurrences st !! oid = Some o →
  events st !! event_id o = Some ev →
  Z.of_nat (enrolment_count st oid) + 1 = capacity_per_occurrence ev →
  request_child rqa ≠ request_child rqb →
  eligible st o rqa → eligible st o rqb →
  let sta := enrol_store st (request_now rqa) (request_child rqa) oid in
  EnrolOccurrenceMutation (request_user rqa) (request_now rqa) oid (request_child rqa) st
  = (Ok (new_enrolment st (request_now rqa) (request_child rqa) oid), sta) ∧
  EnrolOccurrenceMutation (request_user rqb) (request_now rqb) oid (request_child rqb) sta
  = (Raise MAXIMUM_ENROLMENTS, sta) ∧
  Z.of_nat (enrolment_count sta oid) = capacity_per_occurrence ev.
Proof.
  intros Ho He Hlast Hne (Hua & [ca Hca] & Hga & Hja & Hta)
    (Hub & [cb Hcb] & Hgb & Hjb & Htb) sta.
  assert (Hcount : enrolment_count sta oid = S (enrolment_count st oid)).
  { unfold sta. rewrite enrolment_count_enrol_store, decide_True by done. lia. }
  split; [|split].
  - rewrite (enrol_found st _ _ oid _ o ca ev) by done.
    rewrite decide_False by (by rewrite joined_occurrences_nonempty).
    rewrite decide_False by lia. rewrite decide_False by lia. done.
  - rewrite (enrol_found sta _ _ oid _ o cb ev) by done.
    rewrite decide_False; cycle 1.
    { rewrite joined_occurrences_nonempty. intros Hj. apply Hjb.
      apply (already_joined_enrol_store st (request_now rqa) (request_child rqa) oid o);
        [done| |done].
      by apply not_eq_sym. }
    rewrite decide_True by lia. done.
  - lia.
Qed.

(** C6, as amended. For an occurrence with exactly one place left, two
    Enrol requests for distinct eligible children that are served one after
    the other, in either order, end with one enrolment and one "Maximum
    enrolments created", and the occurrence is then exactly full. *)
Theorem two_enrols_for_last_place s oid rq1 rq2 o ev st :
  serial s →
  occurrences st !! oid = Some o →
  events st !! event_id o = Some ev →
  Z.of_nat (enrolment_count st oid) + 1 = capacity_per_occurrence ev →
  request_child rq1 ≠ request_child rq2 →
  eligible st o rq1 →
  eligible st o rq2 →
  ∃ r1 r2 st',
    enrol_two s oid rq1 rq2 st = (r1, r2, st') ∧
    exactly_one_enrolled r1 r2 ∧
    Z.of_nat (enrolment_count st' oid) = capacity_per_occurrence ev.
Proof.
  intros Hs Ho He Hlast Hne H1 H2.
  destruct s; [| |by destruct Hs]; simpl.
  - destruct (one_then_other st oid o ev rq1 rq2) as (-> & -> & Hfull); try done.
    eexists _, _, _. split; [reflexivity|]. split; [|done].
    left. by split.
  - destruct (one_then_other st oid o ev rq2 rq1) as (-> & -> & Hfull); try done.
    eexists _, _, _. split; [reflexivity|]. split; [|done].
    right. by split.
Qed.

Lemma two_enrols_for_last_place_witness :
  ∃ r1 r2 st',
    enrol_two second_then_first 12 (demo_request 1) (demo_request 2) demo = (r1, r2, st') ∧
    exactly_one_enrolled r1 r2 ∧
    Z.of_nat (enrolment_count st' 12) = capacity_per_occurrence (draft 1).
Proof.
  apply (two_enrols_for_last_place second_then_first 12 (demo_request 1) (demo_request 2)
           {| time := 50; event_id := 2; venue_id := 1; occurrence_language := text "fi" |}
           (draft 1) demo).
  - discriminate.
  - reflexivity.
  - reflexivity.
  - reflexivity.
  - simpl. lia.
  - repeat split; try reflexivity; [by eexists|apply not_already_joined; reflexivity
                                    |simpl; lia].
  - repeat split; try reflexivity; [by eexists|apply not_already_joined; reflexivity
                                    |simpl; lia].
Defined.

(** C6 as stated fails. When both requests run their checks before either
    inserts its row, both find the one place free and both are enrolled:
    occurrence 12 with capacity 1 ends with two enrolments. *)
Lemma two_enrols_interleaved_overbook :
  ¬ (∀ s oid rq1 rq2 o ev st,
       occurrences st !! oid = Some o →
       events st !! event_id o = Some ev →
       Z.of_nat (enrolment_count st oid) + 1 = capacity_per_occurrence ev →
       request_child rq1 ≠ request_child rq2 →
       eligible st o rq1 →
       eligible st o rq2 →
       ∃ r1 r2 st',
         enrol_two s oid rq1 rq2 st = (r1, r2, st') ∧ exactly_one_enrolled r1 r2).
Proof.
  intros H.
  destruct (H checks_then_inserts 12%nat (demo_request 1) (demo_request 2)
              {| time := 50; event_id := 2; venue_id := 1;
                 occurrence_language := text "fi" |}
              (draft 1) demo) as (r1 & r2 & st' & Hrun & Hone);
    try reflexivity.
  - simpl. lia.
  - repeat split; try reflexivity; [by eexists|apply not_already_joined; reflexivity
                                    |simpl; lia].
  - repeat split; try reflexivity; [by eexists|apply not_already_joined; reflexivity
                                    |simpl; lia].
  - vm_compute in Hrun. injection Hrun as <- <- <-.
    destruct Hone as [[_ Hr]|[Hr _]]; discriminate.
Qed.

Example demo_overbooked :
  enrolment_count (enrol_two checks_then_inserts 12 (demo_request 1) (demo_request 2)
                     demo).2 12 = 2%nat.
Proof. reflexivity. Qed.
